(** * Brute-force travelling-salesman solver (program/TSPproblem.py)

    A shallow embedding of the [TSPProblem] class and of [tsp_solver], and
    the properties of the exhaustive search: shape, cost and minimality of
    the returned tour, tie-breaking, the degenerate inputs, and the number
    of candidate tours.

    Modelling choices.
    - A Python tuple or list of cities is a [list City]; cities are an
      opaque type with decidable equality that can be used as dict keys
      ([Countable]).
    - The distance table, a dict of dicts, is a finite map of finite maps;
      a lookup of an absent key raises [KeyError].
    - Exceptions are the [Raise] results of a small error monad.
    - Numbers.  The first part of the file takes the distances to be
      integers, as in the table of the demonstration entry point, and
      [math.inf] is the extra element [Inf] of [number].  The module
      [Generic] is the same solver over any kind of number that can be
      added and compared, with Python's floats as an instance; the
      properties that depend on what the numbers are (whether a tour is
      returned at all, what the cost is the sum of, the cost of a path
      taken backwards) are stated there.  [tsp_solver_of_integers] shows
      that the two solvers agree on tables of integers. *)

From Stdlib Require Import ZArith Lia Factorial.
From Stdlib Require PrimFloat.
From stdpp Require Import gmap strings list.

Local Open Scope Z_scope.

(** ** Exceptions *)

Inductive exn : Set :=
  | IndexError
  | KeyError.

Inductive outcome (A : Type) : Type :=
  | Ok (a : A)
  | Raise (e : exn).
Arguments Ok {A} a.
Arguments Raise {A} e.

Global Instance outcome_ret : MRet outcome := λ A a, Ok a.
Global Instance outcome_bind : MBind outcome := λ A B f m,
  match m with
  | Ok a => f a
  | Raise e => Raise e
  end.

(** [for x in l: st = body st x], stopping at the first exception. *)
Fixpoint for_each {S A : Type} (body : S → A → outcome S) (st : S)
    (l : list A) : outcome S :=
  match l with
  | [] => Ok st
  | x :: l' => st' ← body st x; for_each body st' l'
  end.

(** [t[i]] on a tuple, for a non-negative index. *)
Definition index {A : Type} (t : list A) (i : nat) : outcome A :=
  match t !! i with
  | Some x => Ok x
  | None => Raise IndexError
  end.

(** [sum(f(i) for i in idxs)]: the accumulator starts at 0 and every term is
    added to it from the left. *)
Fixpoint sum_gen (f : nat → outcome Z) (idxs : list nat) (acc : Z)
    : outcome Z :=
  match idxs with
  | [] => Ok acc
  | i :: idxs' => x ← f i; sum_gen f idxs' (acc + x)
  end.

(** ** Numbers: integers and [math.inf] *)

Inductive number : Set :=
  | Fin (z : Z)
  | Inf.

(** [a < b] on numbers. *)
Definition number_ltb (a b : number) : bool :=
  match a, b with
  | Fin x, Fin y => bool_decide (x < y)
  | Fin _, Inf => true
  | Inf, _ => false
  end.

(** ** itertools

    [permutations] belongs to Python's standard library; it is modelled
    from its documentation: the tuples come in lexicographic order of the
    positions of the input, and elements are told apart by position, not
    by value. *)

Module itertools.

(** Every way of taking one element out of a list, in the order of the
    positions: the element taken and the elements left, in their order. *)
Fixpoint selections {A : Type} (l : list A) : list (A * list A) :=
  match l with
  | [] => []
  | x :: xs => (x, xs) :: (prod_map id (cons x) <$> selections xs)
  end.

(** The arrangements of [n] elements of the pool: a first element, then an
    arrangement of what is left. *)
Fixpoint permutations_of_length {A : Type} (n : nat) (pool : list A)
    : list (list A) :=
  match n with
  | O => [[]]
  | S n' =>
      '(x, rest) ← selections pool; cons x <$> permutations_of_length n' rest
  end.

(** [itertools.permutations(pool)]: the full-length permutations of the
    pool, elements told apart by position, in lexicographic order of the
    positions.  The empty pool has one permutation, the empty tuple. *)
Definition permutations {A : Type} (pool : list A) : list (list A) :=
  permutations_of_length (length pool) pool.

End itertools.

(** ** The problem model *)

Section TSP.

Context {City : Type} `{Countable City}.

(** A [TSPProblem] object: the fields set by [__init__].  [goal] stays
    [None] and is never read. *)
Record TSPProblem : Type := {
  cities : list City;
  distances : gmap City (gmap City Z);
  initial : City;
}.

Section Methods.

Variable self : TSPProblem.

(** [self.distances[a][b]] *)
Definition distance (a b : City) : outcome Z :=
  match distances self !! a with
  | None => Raise KeyError
  | Some row =>
      match row !! b with
      | None => Raise KeyError
      | Some d => Ok d
      end
  end.

(** [actions]: the cities of the list that are not in [set(state)], in the
    order of the list. *)
Definition actions (state : list City) : list City :=
  let visited : gset City := list_to_set state in
  filter (λ city, city ∉ visited) (cities self).

(** [result]: [state + (action,)] *)
Definition result (state : list City) (action : City) : list City :=
  state ++ [action].

(** [is_goal]: [len(state) == len(self.cities) + 1 and
    state[0] == state[-1]]; the second test is only reached on a state
    that is not empty. *)
Definition is_goal (state : list City) : bool :=
  bool_decide (length state = S (length (cities self)))
  && bool_decide (head state = last state).

(** [action_cost]: [self.distances[s[-1]][a]] *)
Definition action_cost (s : list City) (a : City) (s1 : list City)
    : outcome Z :=
  match last s with
  | None => Raise IndexError
  | Some c => distance c a
  end.

(** [h], inherited from [Problem]. *)
Definition h (node : list City) : Z := 0.

End Methods.

(** ** The exhaustive solver *)

(** The cost of a path, as the solver sums it:
    [sum(distances[path[i]][path[i + 1]] for i in range(len(path) - 1))]. *)
Definition path_cost (problem : TSPProblem) (path : list City) : outcome Z :=
  sum_gen
    (λ i, a ← index path i; b ← index path (i + 1)%nat; distance problem a b)
    (seq 0 (length path - 1)) 0.

(** The state of the loop: [(min_cost, best_path)]. *)
Definition search_state : Type := number * option (list City).

(** One iteration of the loop over the permutations: a permutation that
    does not begin with the start is skipped; otherwise it is closed by the
    start, priced, and kept when its cost is strictly below [min_cost]. *)
Definition solver_step (problem : TSPProblem) (st : search_state)
    (perm : list City) : outcome search_state :=
  let start := initial problem in
  first ← index perm 0;
  if bool_decide (first ≠ start) then Ok st
  else
    let path := perm ++ [start] in
    cost ← path_cost problem path;
    if number_ltb (Fin cost) st.1 then Ok (Fin cost, Some path)
    else Ok st.

(** [tsp_solver(problem)] returns [(best_path, min_cost)]. *)
Definition tsp_solver (problem : TSPProblem)
    : outcome (option (list City) * number) :=
  st ← for_each (solver_step problem) (Inf, None)
         (itertools.permutations (cities problem));
  Ok (st.2, st.1).

(** ** Notions used to state the properties *)

(** The cost of a route recomputed leg by leg, every leg priced from its
    origin to its destination. *)
Fixpoint route_cost (problem : TSPProblem) (route : list City) : outcome Z :=
  match route with
  | a :: (b :: _) as rest =>
      d ← distance problem a b; c ← route_cost problem rest; Ok (d + c)
  | _ => Ok 0
  end.

(** The number of times a city occurs in a route. *)
Definition occurrences (city : City) (route : list City) : nat :=
  length (filter (λ c, c = city) route).

(** The permutations the solver does not skip: those that begin with the
    start city, in the order the generator yields them. *)
Definition candidates (problem : TSPProblem) : list (list City) :=
  filter (λ perm, head perm = Some (initial problem))
    (itertools.permutations (cities problem)).

(** In the enumeration [l], the tuple [perm] at position [i] is the first
    candidate of least cost, and that cost is [c]. *)
Definition first_minimum (problem : TSPProblem) (l : list (list City))
    (i : nat) (perm : list City) (c : Z) : Prop :=
  l !! i = Some perm
  ∧ head perm = Some (initial problem)
  ∧ route_cost problem (perm ++ [initial problem]) = Ok c
  ∧ ∀ j perm', l !! j = Some perm' → head perm' = Some (initial problem) →
      ∃ c', route_cost problem (perm' ++ [initial problem]) = Ok c'
            ∧ c ≤ c' ∧ (c' = c → (i ≤ j)%nat).

(** What the loop has established after the tuples of [l]. *)
Definition loop_invariant (problem : TSPProblem) (l : list (list City))
    (st : search_state) : Prop :=
  match st with
  | (Inf, None) => ∀ perm, perm ∈ l → head perm ≠ Some (initial problem)
  | (Fin c, Some best) =>
      ∃ i perm, best = perm ++ [initial problem]
                ∧ first_minimum problem l i perm c
  | _ => False
  end.

(** A problem instance as the interface asks for it: at least two cities,
    all distinct, the start among them, and a distance for every ordered
    pair of distinct cities. *)
Record valid_instance (problem : TSPProblem) : Prop := {
  valid_size : (2 ≤ length (cities problem))%nat;
  valid_distinct : NoDup (cities problem);
  valid_start : initial problem ∈ cities problem;
  valid_table : ∀ a b,
    a ∈ cities problem → b ∈ cities problem → a ≠ b →
    ∃ d, distance problem a b = Ok d;
}.

Definition is_ok {A : Type} (r : outcome A) : bool :=
  match r with Ok _ => true | Raise _ => false end.

Definition valid_instanceb (problem : TSPProblem) : bool :=
  bool_decide (2 ≤ length (cities problem))%nat
  && bool_decide (NoDup (cities problem))
  && bool_decide (initial problem ∈ cities problem)
  && forallb (λ a,
       forallb (λ b, bool_decide (a = b) || is_ok (distance problem a b))
         (cities problem))
       (cities problem).

End TSP.

Arguments TSPProblem City {_ _}.

Definition demo : TSPProblem string := {|
  cities := ["A"; "B"; "C"; "D"];
  distances := {[
    "A" := {[ "A" := 0; "B" := 10; "C" := 15; "D" := 20 ]};
    "B" := {[ "A" := 10; "B" := 0; "C" := 35; "D" := 25 ]};
    "C" := {[ "A" := 15; "B" := 35; "C" := 0; "D" := 30 ]};
    "D" := {[ "A" := 20; "B" := 25; "C" := 30; "D" := 0 ]} ]};
  initial := "A";
|}.

(** The table of the demonstration with the leg from A to B made dearer than
    the leg from B to A. *)
Definition one_way : TSPProblem string := {|
  cities := ["A"; "B"; "C"];
  distances := {[
    "A" := {[ "A" := 0; "B" := 100; "C" := 1 ]};
    "B" := {[ "A" := 1; "B" := 0; "C" := 100 ]};
    "C" := {[ "A" := 100; "B" := 1; "C" := 0 ]} ]};
  initial := "A";
|}.

Definition no_cities : TSPProblem string := {|
  cities := [];
  distances := ∅;
  initial := "A";
|}.

(** The demonstration with a start city that is not in the city list. *)
Definition stranger : TSPProblem string := {|
  cities := cities demo;
  distances := distances demo;
  initial := "Z";
|}.

(** The demonstration with its city list in another order. *)
Definition demo_reordered : TSPProblem string := {|
  cities := ["D"; "A"; "C"; "B"];
  distances := distances demo;
  initial := "A";
|}.

(** The demonstration with other distances from each city to itself. *)
Definition demo_diagonal : TSPProblem string := {|
  cities := ["A"; "B"; "C"; "D"];
  distances := {[
    "A" := {[ "A" := 99; "B" := 10; "C" := 15; "D" := 20 ]};
    "B" := {[ "A" := 10; "B" := 98; "C" := 35; "D" := 25 ]};
    "C" := {[ "A" := 15; "B" := 35; "C" := 97; "D" := 30 ]};
    "D" := {[ "A" := 20; "B" := 25; "C" := 30; "D" := 96 ]} ]};
  initial := "A";
|}.

(** Three cities, with no distance from C to B: the round A, B, C can be
    priced, the round A, C, B cannot. *)
Definition gap : TSPProblem string := {|
  cities := ["A"; "B"; "C"];
  distances := {[
    "A" := {[ "B" := 1; "C" := 1 ]};
    "B" := {[ "A" := 1; "C" := 1 ]};
    "C" := {[ "A" := 1 ]} ]};
  initial := "A";
|}.

(** ** Notions for the properties of the model and of the search *)

Section search_notions.

Context {City : Type} `{Countable City}.

(** One move of a search that follows the model: a city that [actions]
    offers in a state is added to it with [result]. *)
Definition expands (problem : TSPProblem City) (s s' : list City) : Prop :=
  ∃ a, a ∈ actions problem s ∧ s' = result s a.

(** No entry of the table is negative. *)
Definition nonnegative_table (problem : TSPProblem City) : Prop :=
  map_Forall (λ _ row, map_Forall (λ _ (d : Z), 0 ≤ d) row)
    (distances problem).

(** The search with the start put in front of every permutation of the
    other cities, instead of all permutations filtered by their first
    element; the body of the loop is the one of [tsp_solver]. *)
Definition tsp_solver_start_first (problem : TSPProblem City)
    : outcome (option (list City) * number) :=
  st ← for_each (solver_step problem) (Inf, None)
         (cons (initial problem) <$>
            itertools.permutations
              (filter (λ c, c ≠ initial problem) (cities problem)));
  Ok (st.2, st.1).

End search_notions.

(** ** The solver over any kind of number

    The table of a problem may hold any Python numbers.  The solver does
    three things with them: it adds them from the left, starting from the
    integer 0; it compares a sum with [min_cost] by [<]; and [min_cost]
    starts as [math.inf].  [Number] is that interface, and [Generic] is
    the solver written over it.  Integers with [math.inf] are one instance
    ([exact_number]), the binary64 floats of Python are another
    ([binary64.float_number]).  Arithmetic that raises (an integer too
    large for a float added to a float) is outside this model. *)

Class Number (N : Type) : Type := {
  num_zero : N;
  num_inf : N;
  num_add : N → N → N;
  num_ltb : N → N → bool;
}.

Module Generic.

Section Solver.

Context {City : Type} `{Countable City} {N : Type} `{Number N}.

(** A [TSPProblem] object whose table holds numbers of the kind [N]. *)
Record TSPProblem : Type := {
  cities : list City;
  distances : gmap City (gmap City N);
  initial : City;
}.

(** [problem.distances[a][b]] *)
Definition distance (problem : TSPProblem) (a b : City) : outcome N :=
  match distances problem !! a with
  | None => Raise KeyError
  | Some row =>
      match row !! b with
      | None => Raise KeyError
      | Some d => Ok d
      end
  end.

(** [sum(f(i) for i in idxs)], from the accumulator [acc]. *)
Fixpoint sum_gen (f : nat → outcome N) (idxs : list nat) (acc : N)
    : outcome N :=
  match idxs with
  | [] => Ok acc
  | i :: idxs' => x ← f i; sum_gen f idxs' (num_add acc x)
  end.

(** [sum(distances[path[i]][path[i + 1]] for i in range(len(path) - 1))] *)
Definition path_cost (problem : TSPProblem) (path : list City) : outcome N :=
  sum_gen
    (λ i, a ← index path i; b ← index path (i + 1)%nat; distance problem a b)
    (seq 0 (length path - 1)) num_zero.

(** The state of the loop: [(min_cost, best_path)]. *)
Definition search_state : Type := N * option (list City).

(** One iteration of the loop of [tsp_solver]. *)
Definition solver_step (problem : TSPProblem) (st : search_state)
    (perm : list City) : outcome search_state :=
  let start := initial problem in
  first ← index perm 0;
  if bool_decide (first ≠ start) then Ok st
  else
    let path := perm ++ [start] in
    cost ← path_cost problem path;
    if num_ltb cost st.1 then Ok (cost, Some path)
    else Ok st.

(** [tsp_solver(problem)] returns [(best_path, min_cost)]. *)
Definition tsp_solver (problem : TSPProblem)
    : outcome (option (list City) * N) :=
  st ← for_each (solver_step problem) (num_inf, None)
         (itertools.permutations (cities problem));
  Ok (st.2, st.1).

(** The legs of a route priced one after the other and added to [acc] from
    the left. *)
Fixpoint legs_cost (problem : TSPProblem) (acc : N) (route : list City)
    : outcome N :=
  match route with
  | a :: (b :: _) as rest =>
      d ← distance problem a b; legs_cost problem (num_add acc d) rest
  | _ => Ok acc
  end.

(** The permutation [perm] begins with the start and the solver's sum for
    the tour it closes into is below [math.inf]. *)
Definition finite_candidate (problem : TSPProblem) (perm : list City)
    : Prop :=
  perm ≡ₚ cities problem
  ∧ head perm = Some (initial problem)
  ∧ ∃ c, path_cost problem (perm ++ [initial problem]) = Ok c
         ∧ num_ltb c num_inf = true.

(** At least two cities, all distinct, the start among them, and an entry
    of the table for every ordered pair of distinct cities. *)
Record valid_instance (problem : TSPProblem) : Prop := {
  valid_size : (2 ≤ length (cities problem))%nat;
  valid_distinct : NoDup (cities problem);
  valid_start : initial problem ∈ cities problem;
  valid_table : ∀ a b,
    a ∈ cities problem → b ∈ cities problem → a ≠ b →
    ∃ d, distance problem a b = Ok d;
}.

Definition valid_instanceb (problem : TSPProblem) : bool :=
  bool_decide (2 ≤ length (cities problem))%nat
  && bool_decide (NoDup (cities problem))
  && bool_decide (initial problem ∈ cities problem)
  && forallb (λ a,
       forallb (λ b, bool_decide (a = b) || is_ok (distance problem a b))
         (cities problem))
       (cities problem).

End Solver.

Arguments TSPProblem City {_ _} N.

End Generic.

(** Python integers and [math.inf]. *)
Global Instance exact_number : Number number := {|
  num_zero := Fin 0;
  num_inf := Inf;
  num_add a b :=
    match a, b with
    | Fin x, Fin y => Fin (x + y)
    | _, _ => Inf
    end;
  num_ltb := number_ltb;
|}.

(** A problem with a table of integers, as a problem over [number]. *)
Definition of_integers {City : Type} `{Countable City}
    (problem : TSPProblem City) : Generic.TSPProblem City number := {|
  Generic.cities := cities problem;
  Generic.distances :=
    (λ row : gmap City Z, Fin <$> row) <$> distances problem;
  Generic.initial := initial problem;
|}.

(** Python floats. *)
Module binary64.

Import PrimFloat.

Global Instance float_number : Number float := {|
  num_zero := zero;
  num_inf := infinity;
  num_add := add;
  num_ltb := ltb;
|}.

Local Open Scope float_scope.

(** Two cities, with [math.inf] for the distance from A to B. *)
Definition inf_leg : Generic.TSPProblem string float := {|
  Generic.cities := ["A"; "B"];
  Generic.distances := {[
    "A" := {[ "A" := 0; "B" := infinity ]};
    "B" := {[ "A" := 1; "B" := 0 ]} ]};
  Generic.initial := "A";
|}.

(** Three cities, with [math.inf] for every distance out of A. *)
Definition no_way_out : Generic.TSPProblem string float := {|
  Generic.cities := ["A"; "B"; "C"];
  Generic.distances := {[
    "A" := {[ "A" := 0; "B" := infinity; "C" := infinity ]};
    "B" := {[ "A" := 1; "B" := 0; "C" := 2 ]};
    "C" := {[ "A" := 3; "B" := 4; "C" := 0 ]} ]};
  Generic.initial := "A";
|}.

(** One city, with [math.inf] for its distance to itself. *)
Definition single_inf : Generic.TSPProblem string float := {|
  Generic.cities := ["A"];
  Generic.distances := {[ "A" := {[ "A" := infinity ]} ]};
  Generic.initial := "A";
|}.

Definition two_and_a_half : float := 2.5.
Definition eighty : float := 80.

(** One city, at the distance 2.5 from itself. *)
Definition single_float : Generic.TSPProblem string float := {|
  Generic.cities := ["A"];
  Generic.distances := {[ "A" := {[ "A" := two_and_a_half ]} ]};
  Generic.initial := "A";
|}.

(** The demonstration with the floats of its integers. *)
Definition demo_float : Generic.TSPProblem string float := {|
  Generic.cities := ["A"; "B"; "C"; "D"];
  Generic.distances := {[
    "A" := {[ "A" := 0; "B" := 10; "C" := 15; "D" := 20 ]};
    "B" := {[ "A" := 10; "B" := 0; "C" := 35; "D" := 25 ]};
    "C" := {[ "A" := 15; "B" := 35; "C" := 0; "D" := 30 ]};
    "D" := {[ "A" := 20; "B" := 25; "C" := 30; "D" := 0 ]} ]};
  Generic.initial := "A";
|}.

(** The floats that Python writes 0.1, 0.2 and 0.3. *)
Definition tenth : float := 0x1.999999999999ap-4.
Definition fifth : float := 0x1.999999999999ap-3.
Definition three_tenths : float := 0x1.3333333333333p-2.

(** A symmetric table of floats: A-B is 0.1, B-C is 0.2, C-A is 0.3. *)
Definition triangle : Generic.TSPProblem string float := {|
  Generic.cities := ["A"; "B"; "C"];
  Generic.distances := {[
    "A" := {[ "A" := 0; "B" := tenth; "C" := three_tenths ]};
    "B" := {[ "A" := tenth; "B" := 0; "C" := fifth ]};
    "C" := {[ "A" := three_tenths; "B" := fifth; "C" := 0 ]} ]};
  Generic.initial := "A";
|}.

End binary64.

(** ** Properties of [itertools.permutations] *)

Section permutations_facts.

Context {A : Type}.
Implicit Types (l pool q : list A) (x : A).

Import itertools.

Lemma selections_fst l : (selections l).*1 = l.
Proof.
  induction l as [|x l IH]; simpl; [done|].
  f_equal. rewrite <- list_fmap_compose.
  rewrite <- IH at 2. apply list_fmap_ext. by intros ? [??].
Qed.

Lemma selections_app l1 x l2 :
  selections (l1 ++ x :: l2) =
    (prod_map id (λ r, r ++ x :: l2) <$> selections l1)
    ++ (x, l1 ++ l2) :: (prod_map id (λ r, l1 ++ x :: r) <$> selections l2).
Proof.
  induction l1 as [|y l1 IH]; simpl.
  - done.
  - f_equal. rewrite IH, fmap_app, fmap_cons, <- !list_fmap_compose.
    apply (f_equal2 app); [|apply (f_equal2 cons); [done|]];
      apply list_fmap_ext; by intros ? [??].
Qed.

Lemma elem_of_selections x r l :
  (x, r) ∈ selections l ↔ ∃ l1 l2, l = l1 ++ x :: l2 ∧ r = l1 ++ l2.
Proof.
  split.
  - revert r. induction l as [|y l IH]; simpl; intros r Hin.
    + by apply elem_of_nil in Hin.
    + apply elem_of_cons in Hin as [[= -> ->]|Hin].
      * by exists [], l.
      * apply list_elem_of_fmap in Hin as ([x' r'] & [= -> ->] & Hin).
        destruct (IH _ Hin) as (l1 & l2 & -> & ->).
        by exists (y :: l1), l2.
  - intros (l1 & l2 & -> & ->). rewrite selections_app.
    apply elem_of_app. right. left.
Qed.

Lemma selections_Permutation x r l : (x, r) ∈ selections l → x :: r ≡ₚ l.
Proof.
  intros (l1 & l2 & -> & ->)%elem_of_selections.
  by rewrite Permutation_middle.
Qed.

Lemma selections_length x r l :
  (x, r) ∈ selections l → length l = S (length r).
Proof. intros Hin%selections_Permutation. by rewrite <- Hin. Qed.


Lemma bind_all_nil {B C : Type} (f : B → list C) (l : list B) :
  (∀ y, y ∈ l → f y = []) → l ≫= f = [].
Proof.
  induction l as [|y l IH]; intros Hf; [done|].
  rewrite bind_cons, Hf, IH; [done| |left].
  intros z Hz. apply Hf. by right.
Qed.


Lemma filter_bind {B C : Type} (P : C → Prop) `{!∀ c, Decision (P c)}
    (f : B → list C) (l : list B) :
  filter P (l ≫= f) = l ≫= λ y, filter P (f y).
Proof.
  induction l as [|y l IH]; [done|].
  by rewrite !bind_cons, filter_app, IH.
Qed.

Lemma elem_of_permutations_of_length n pool q :
  length pool = n → q ∈ permutations_of_length n pool ↔ q ≡ₚ pool.
Proof.
  revert pool q. induction n as [|n IH]; intros pool q Hlen; simpl.
  - apply nil_length_inv in Hlen as ->. rewrite list_elem_of_singleton.
    split; [by intros ->|]. intros Hq. by apply Permutation_nil_r.
  - rewrite list_elem_of_bind. split.
    + intros ([x r] & Hq & Hsel).
      apply list_elem_of_fmap in Hq as (q' & -> & Hq').
      apply IH in Hq'.
      * rewrite Hq'. by apply selections_Permutation.
      * apply selections_length in Hsel. lia.
    + intros Hq. destruct q as [|x q'].
      { apply Permutation_nil_l in Hq. by subst. }
      assert (x ∈ pool) as (l1 & l2 & ->)%list_elem_of_split.
      { rewrite <- Hq. left. }
      exists (x, l1 ++ l2). split.
      * apply list_elem_of_fmap. exists q'. split; [done|].
        apply IH.
        -- rewrite length_app in *. simpl in Hlen. lia.
        -- rewrite <- Permutation_middle in Hq.
           by apply Permutation_cons_inv in Hq.
      * apply elem_of_selections. by exists l1, l2.
Qed.

(** A tuple is produced exactly when it is a rearrangement of the pool. *)
Lemma elem_of_permutations pool q : q ∈ permutations pool ↔ q ≡ₚ pool.
Proof. by apply elem_of_permutations_of_length. Qed.





(** Keeping the permutations that begin with [s] is permuting the other
    elements and putting [s] in front, in the same order. *)
Lemma filter_head_permutations `{!EqDecision A} l1 s l2 :
  s ∉ l1 → s ∉ l2 →
  filter (λ q, head q = Some s) (permutations (l1 ++ s :: l2))
  = cons s <$> permutations (l1 ++ l2).
Proof.
  intros Hl1 Hl2. unfold permutations.
  rewrite length_app. simpl length.
  replace (length l1 + S (length l2))%nat with (S (length (l1 ++ l2)))
    by (rewrite length_app; lia).
  simpl permutations_of_length.
  rewrite filter_bind, selections_app, bind_app, bind_cons.
  assert (∀ x r, x ≠ s →
    filter (λ q, head q = Some s)
      (cons x <$> permutations_of_length (length (l1 ++ l2)) r) = [])
    as Hother.
  { intros x r Hx. induction (permutations_of_length _ r) as [|q qs IH];
      [done|].
    rewrite fmap_cons, filter_cons_False; [done|]. simpl. congruence. }
  rewrite !bind_all_nil.
  - rewrite app_nil_r. simpl.
    induction (permutations_of_length _ (l1 ++ l2)) as [|q qs IH]; [done|].
    rewrite fmap_cons, filter_cons_True by done. by f_equal.
  - intros [x r] ([x' r'] & [= -> ->] & Hsel)%list_elem_of_fmap.
    apply Hother. intros ->. apply Hl2.
    rewrite <- (selections_fst l2). apply list_elem_of_fmap.
    by exists (s, r').
  - intros [x r] ([x' r'] & [= -> ->] & Hsel)%list_elem_of_fmap.
    apply Hother. intros ->. apply Hl1.
    rewrite <- (selections_fst l1). apply list_elem_of_fmap.
    by exists (s, r').
Qed.

End permutations_facts.

(** ** Properties of the solver *)

Section solver_facts.

Context {City : Type} `{Countable City}.
Implicit Types (problem : TSPProblem City) (perm path route : list City).
Implicit Types (st : search_state (City := City)).

Lemma bind_Ok {A B : Type} (a : A) (f : A → outcome B) : Ok a ≫= f = f a.
Proof. done. Qed.

Lemma bind_Ok_inv {A B : Type} (m : outcome A) (f : A → outcome B) b :
  m ≫= f = Ok b → ∃ a, m = Ok a ∧ f a = Ok b.
Proof. destruct m as [a|e]; [by exists a|done]. Qed.

Lemma for_each_snoc {S A : Type} (body : S → A → outcome S) s0 l x :
  for_each body s0 (l ++ [x]) = for_each body s0 l ≫= λ s', body s' x.
Proof.
  revert s0. induction l as [|y l IH]; intros s0; simpl.
  - by destruct (body s0 x).
  - destruct (body s0 y) as [s1|e]; [apply IH|done].
Qed.

Lemma for_each_unchanged {S A : Type} (body : S → A → outcome S) s0 l :
  (∀ x, x ∈ l → body s0 x = Ok s0) → for_each body s0 l = Ok s0.
Proof.
  induction l as [|y l IH]; intros Hl; [done|]. simpl.
  rewrite Hl by left. apply IH. intros x Hx. apply Hl. by right.
Qed.

Lemma for_each_ext {S A : Type} (f g : S → A → outcome S) s0 l :
  (∀ s x, x ∈ l → f s x = g s x) → for_each f s0 l = for_each g s0 l.
Proof.
  revert s0. induction l as [|y l IH]; intros s0 Hl; [done|]. simpl.
  rewrite Hl by left. destruct (g s0 y); [|done].
  apply IH. intros s x Hx. apply Hl. by right.
Qed.

Lemma sum_gen_ext (f g : nat → outcome Z) idxs acc :
  (∀ i, i ∈ idxs → f i = g i) → sum_gen f idxs acc = sum_gen g idxs acc.
Proof.
  revert acc. induction idxs as [|i idxs IH]; intros acc Hl; [done|]. simpl.
  rewrite Hl by left. destruct (g i); [|done].
  apply IH. intros j Hj. apply Hl. by right.
Qed.

Lemma sum_gen_fmap (f : nat → outcome Z) (g : nat → nat) idxs acc :
  sum_gen f (g <$> idxs) acc = sum_gen (f ∘ g) idxs acc.
Proof.
  revert acc. induction idxs as [|i idxs IH]; intros acc; [done|]. simpl.
  destruct (f (g i)); [apply IH|done].
Qed.

Lemma sum_gen_acc (f : nat → outcome Z) idxs acc :
  sum_gen f idxs acc = sum_gen f idxs 0 ≫= λ s, Ok (acc + s).
Proof.
  revert acc. induction idxs as [|i idxs IH]; intros acc; simpl.
  - by rewrite Z.add_0_r.
  - destruct (f i) as [x|e]; [|done]. simpl.
    rewrite (IH (acc + x)), (IH (0 + x)).
    destruct (sum_gen f idxs 0); simpl; [|done]. f_equal. lia.
Qed.

(** The sum over the indices is the sum over the legs. *)
Lemma path_cost_route_cost problem path :
  path_cost problem path = route_cost problem path.
Proof.
  induction path as [|a [|b rest] IH]; [done..|].
  change (route_cost problem (a :: b :: rest))
    with (distance problem a b ≫= λ d,
          route_cost problem (b :: rest) ≫= λ c, Ok (d + c)).
  rewrite <- IH. unfold path_cost.
  replace (length (a :: b :: rest) - 1)%nat with (S (length rest))
    by (simpl; lia).
  replace (length (b :: rest) - 1)%nat with (length rest) by (simpl; lia).
  rewrite <- cons_seq, <- fmap_S_seq. simpl.
  destruct (distance problem a b) as [d|e]; simpl; [|done].
  rewrite sum_gen_fmap, sum_gen_acc.
  rewrite (sum_gen_ext _ (λ i, index (b :: rest) i ≫= λ a0,
             index (b :: rest) (i + 1)%nat ≫= λ b0, distance problem a0 b0))
    by done.
  by destruct (sum_gen _ _ 0).
Qed.


Lemma solver_step_skip problem st perm :
  perm ≠ [] → head perm ≠ Some (initial problem) →
  solver_step problem st perm = Ok st.
Proof.
  destruct perm as [|c r]; [done|]. intros _ Hc.
  unfold solver_step. simpl. rewrite bool_decide_eq_true_2; [done|].
  simpl in Hc. congruence.
Qed.

Lemma solver_step_candidate problem st perm :
  head perm = Some (initial problem) →
  solver_step problem st perm =
    route_cost problem (perm ++ [initial problem]) ≫= λ cost,
    Ok (if number_ltb (Fin cost) st.1
        then (Fin cost, Some (perm ++ [initial problem])) else st).
Proof.
  destruct perm as [|c r]; [done|]. intros [= ->].
  unfold solver_step.
  change (index (initial problem :: r) 0) with (Ok (initial problem)).
  rewrite bind_Ok.
  rewrite bool_decide_eq_false_2 by (intros Hne; by apply Hne).
  rewrite path_cost_route_cost.
  destruct (route_cost _ _) as [cost|e]; [|done]. rewrite !bind_Ok.
  by destruct (number_ltb (Fin cost) st.1).
Qed.

(** The invariant of the loop of [tsp_solver]. *)
Lemma for_each_solver_step problem l st :
  for_each (solver_step problem) (Inf, None) l = Ok st →
  loop_invariant problem l st.
Proof.
  revert st. induction l as [|x l IH] using rev_ind; intros st.
  { intros [= <-]. intros perm Hperm. by apply elem_of_nil in Hperm. }
  rewrite for_each_snoc. intros (st0 & Hl & Hx)%bind_Ok_inv.
  specialize (IH _ Hl).
  destruct (decide (head x = Some (initial problem))) as [Hhd|Hhd].
  - (* a candidate *)
    rewrite solver_step_candidate in Hx by done.
    apply bind_Ok_inv in Hx as (cost & Hcost & [= <-]).
    assert ((l ++ [x]) !! length l = Some x) as Hlast
      by by apply list_lookup_middle.
    destruct st0 as [[c0|] [best0|]]; simpl in IH |- *; try done.
    + destruct IH as (i & perm & -> & Hi & Hp & Hc & Hmin).
      unfold number_ltb. case_bool_decide as Hlt.
      * (* strictly cheaper: it replaces the best so far *)
        exists (length l), x. split; [done|]. split_and!; [done..|].
        intros j perm' Hj Hperm'.
        destruct (decide (j < length l)%nat) as [Hjl|Hjl].
        -- rewrite lookup_app_l in Hj by done.
           destruct (Hmin _ _ Hj Hperm') as (c' & Hc' & Hle & _).
           exists c'. split_and!; [done|lia|lia].
        -- assert (j = length l) as ->.
           { apply lookup_lt_Some in Hj. rewrite length_app in Hj.
             simpl in Hj. lia. }
           rewrite Hlast in Hj. injection Hj as <-.
           exists cost. split_and!; [done|lia|lia].
      * (* not cheaper: the best so far stays *)
        exists i, perm. split; [done|].
        split_and!; [by apply lookup_app_l_Some|done..|].
        intros j perm' Hj Hperm'.
        destruct (decide (j < length l)%nat) as [Hjl|Hjl].
        -- rewrite lookup_app_l in Hj by done. by apply Hmin.
        -- assert (j = length l) as ->.
           { apply lookup_lt_Some in Hj. rewrite length_app in Hj.
             simpl in Hj. lia. }
           rewrite Hlast in Hj. injection Hj as <-.
           exists cost. split_and!; [done|lia|].
           intros _. apply lookup_lt_Some in Hi. lia.
    + (* the first candidate *)
      exists (length l), x. split; [done|]. split_and!; [done..|].
      intros j perm' Hj Hperm'.
      destruct (decide (j < length l)%nat) as [Hjl|Hjl].
      * rewrite lookup_app_l in Hj by done.
        apply list_elem_of_lookup_2 in Hj. by destruct (IH _ Hj).
      * assert (j = length l) as ->.
        { apply lookup_lt_Some in Hj. rewrite length_app in Hj.
          simpl in Hj. lia. }
        rewrite Hlast in Hj. injection Hj as <-.
        exists cost. split_and!; [done|lia|lia].
  - (* skipped *)
    destruct x as [|c r]; [done|].
    rewrite solver_step_skip in Hx by done. injection Hx as <-.
    destruct st0 as [[c0|] [best0|]]; simpl in IH |- *; try done.
    + destruct IH as (i & perm & -> & Hi & Hp & Hc & Hmin).
      exists i, perm. split; [done|].
      split_and!; [by apply lookup_app_l_Some|done..|].
      intros j perm' Hj Hperm'.
      destruct (decide (j < length l)%nat) as [Hjl|Hjl].
      * rewrite lookup_app_l in Hj by done. by apply Hmin.
      * assert (j = length l) as ->.
        { apply lookup_lt_Some in Hj. rewrite length_app in Hj.
          simpl in Hj. lia. }
        rewrite list_lookup_middle in Hj by done. by injection Hj as <-.
    + intros perm [Hperm|Hperm%list_elem_of_singleton]%elem_of_app;
        [by apply IH|by subst].
Qed.

(** The loop raises nothing when no tuple is empty and every candidate can
    be priced. *)
Lemma for_each_solver_step_Ok problem l st0 :
  (∀ perm, perm ∈ l → perm ≠ []) →
  (∀ perm, perm ∈ l → head perm = Some (initial problem) →
     ∃ c, route_cost problem (perm ++ [initial problem]) = Ok c) →
  ∃ st, for_each (solver_step problem) st0 l = Ok st.
Proof.
  revert st0. induction l as [|x l IH]; intros st0 Hne Hc; [by eexists|].
  simpl.
  assert (∃ st1, solver_step problem st0 x = Ok st1) as [st1 ->].
  { destruct (decide (head x = Some (initial problem))) as [Hhd|Hhd].
    - rewrite solver_step_candidate by done.
      destruct (Hc x) as [c ->]; [left|done|]. by eexists.
    - rewrite solver_step_skip; [by eexists|apply Hne; left|done]. }
  simpl. apply IH.
  - intros perm Hperm. apply Hne. by right.
  - intros perm Hperm. apply Hc. by right.
Qed.

Lemma for_each_filter {S A : Type} (body : S → A → outcome S)
    (P : A → Prop) `{!∀ x, Decision (P x)} s0 l :
  (∀ s x, x ∈ l → ¬ P x → body s x = Ok s) →
  for_each body s0 l = for_each body s0 (filter P l).
Proof.
  revert s0. induction l as [|y l IH]; intros s0 Hskip; [done|].
  assert (∀ s x, x ∈ l → ¬ P x → body s x = Ok s) as Hskip'.
  { intros s x Hx. apply Hskip. by right. }
  destruct (decide (P y)) as [Hy|Hy].
  - rewrite filter_cons_True by done. simpl.
    destruct (body s0 y); [by apply IH|done].
  - rewrite filter_cons_False by done. simpl.
    rewrite Hskip; [by apply IH|left|done].
Qed.

(** The loop evaluates the candidates, in their order, and nothing else. *)
Lemma for_each_candidates problem st0 :
  cities problem ≠ [] →
  for_each (solver_step problem) st0 (itertools.permutations (cities problem))
  = for_each (solver_step problem) st0 (candidates problem).
Proof.
  intros Hne. apply for_each_filter. intros st perm Hperm Hhd.
  apply solver_step_skip; [|done].
  apply elem_of_permutations in Hperm. intros ->.
  by apply Permutation_nil_l in Hperm.
Qed.

Lemma route_cost_Ok problem route :
  (∀ i a b, route !! i = Some a → route !! S i = Some b →
     ∃ d, distance problem a b = Ok d) →
  ∃ c, route_cost problem route = Ok c.
Proof.
  induction route as [|a route IH]; intros Hlegs; [by eexists|].
  destruct route as [|b rest]; [by eexists|].
  destruct (Hlegs 0%nat a b) as [d Hd]; [done..|].
  destruct IH as [c Hc].
  { intros i a' b' Ha' Hb'. by apply (Hlegs (S i)). }
  exists (d + c).
  change (route_cost problem (a :: b :: rest))
    with (distance problem a b ≫= λ d,
          route_cost problem (b :: rest) ≫= λ c, Ok (d + c)).
  by rewrite Hd, bind_Ok, Hc.
Qed.

(** On a valid instance every candidate closes into a tour that can be
    priced: no leg of it joins a city to itself. *)
Lemma valid_candidate_cost problem perm :
  valid_instance problem →
  perm ≡ₚ cities problem → head perm = Some (initial problem) →
  ∃ c, route_cost problem (perm ++ [initial problem]) = Ok c.
Proof.
  intros [Hsize Hnd Hstart Htable] Hperm Hhd.
  assert (NoDup perm) as Hnd' by by rewrite Hperm.
  assert (length perm = length (cities problem)) as Hlen by by rewrite Hperm.
  assert (perm !! 0%nat = Some (initial problem)) as Hhd0
    by by rewrite <- head_lookup.
  apply route_cost_Ok. intros i a b Ha Hb.
  assert (S i < length (perm ++ [initial problem]))%nat as Hi
    by by eapply lookup_lt_Some.
  rewrite length_app in Hi. simpl in Hi.
  rewrite lookup_app_l in Ha by lia.
  assert (a ∈ cities problem) as Hain.
  { rewrite <- Hperm. by eapply list_elem_of_lookup_2. }
  destruct (decide (S i < length perm)%nat) as [Hlt|Hlt].
  - rewrite lookup_app_l in Hb by lia.
    apply Htable; [done| |].
    + rewrite <- Hperm. by eapply list_elem_of_lookup_2.
    + intros ->. pose proof (NoDup_lookup _ _ _ _ Hnd' Ha Hb). lia.
  - rewrite lookup_app_r in Hb by lia.
    replace (S i - length perm)%nat with 0%nat in Hb by lia.
    injection Hb as <-. apply Htable; [done..|].
    intros ->. pose proof (NoDup_lookup _ _ _ _ Hnd' Ha Hhd0). lia.
Qed.

(** On a valid instance the solver raises nothing and returns the first
    candidate of least cost. *)
Lemma tsp_solver_valid problem :
  valid_instance problem →
  ∃ i perm c,
    tsp_solver problem = Ok (Some (perm ++ [initial problem]), Fin c)
    ∧ first_minimum problem (itertools.permutations (cities problem))
        i perm c.
Proof.
  intros Hvalid. unfold tsp_solver.
  destruct (for_each_solver_step_Ok problem
              (itertools.permutations (cities problem)) (Inf, None))
    as [st Hst].
  { intros perm Hperm%elem_of_permutations ->.
    apply Permutation_nil_l in Hperm. destruct Hvalid as [Hsize _ _ _].
    rewrite <- Hperm in Hsize. simpl in Hsize. lia. }
  { intros perm Hperm%elem_of_permutations.
    by apply valid_candidate_cost. }
  rewrite Hst, bind_Ok. apply for_each_solver_step in Hst.
  destruct st as [[c|] [best|]]; simpl in Hst; try done.
  - destruct Hst as (i & perm & -> & Hmin). by exists i, perm, c.
  - exfalso.
    destruct (list_elem_of_split _ _ (valid_start _ Hvalid))
      as (l1 & l2 & Hcities).
    apply (Hst (initial problem :: l1 ++ l2)); [|done].
    apply elem_of_permutations. by rewrite Hcities, Permutation_middle.
Qed.

Lemma valid_instanceb_correct problem :
  valid_instanceb problem = true → valid_instance problem.
Proof.
  unfold valid_instanceb. rewrite !andb_true_iff, !bool_decide_eq_true.
  intros [[[Hsize Hnd] Hstart] Htable]. split; [done..|].
  intros a b Ha Hb Hab.
  rewrite forallb_forall in Htable.
  apply list_elem_of_In, Htable in Ha. rewrite forallb_forall in Ha.
  apply list_elem_of_In, Ha in Hb.
  apply orb_true_iff in Hb as [Heq%bool_decide_eq_true|Hok]; [done|].
  destruct (distance problem a b) as [d|e]; [by exists d|done].
Qed.

End solver_facts.

(** ** The solver on valid instances *)

Section valid_instances.

Context {City : Type} `{Countable City}.
Implicit Types (problem : TSPProblem City) (perm tour : list City).

(** C1. On an instance with at least two distinct cities, a complete table
    and the start among the cities, [tsp_solver] returns a tour and its
    cost, and that cost is minimal: every rearrangement of the cities that
    begins with the start, closed by the start, has a cost, and none has a
    cost strictly lower than the returned one. *)
Theorem tsp_solver_minimal problem :
  valid_instance problem →
  ∃ tour c,
    tsp_solver problem = Ok (Some tour, Fin c)
    ∧ route_cost problem tour = Ok c
    ∧ ∀ perm,
        perm ≡ₚ cities problem → head perm = Some (initial problem) →
        ∃ c', route_cost problem (perm ++ [initial problem]) = Ok c'
              ∧ ¬ c' < c.
Proof.
  intros Hvalid.
  destruct (tsp_solver_valid problem Hvalid)
    as (i & best & c & Hrun & _ & _ & Hc & Hmin).
  exists (best ++ [initial problem]), c. split_and!; [done..|].
  intros perm Hperm Hhd.
  apply elem_of_permutations, list_elem_of_lookup in Hperm as [j Hj].
  destruct (Hmin j perm Hj Hhd) as (c' & Hc' & Hle & _).
  exists c'. split; [done|lia].
Qed.

(** C4. Ties go to the first candidate the generator yields: when the
    solver returns a tour of cost [c], the tour closes the permutation at
    some position [i] of the enumeration, every permutation that begins
    with the start closes into a tour that costs at least [c], and one that
    costs exactly [c] is at position [i] or later. *)
Theorem tsp_solver_tie_break problem tour c :
  tsp_solver problem = Ok (Some tour, Fin c) →
  ∃ i perm,
    itertools.permutations (cities problem) !! i = Some perm
    ∧ head perm = Some (initial problem)
    ∧ tour = perm ++ [initial problem]
    ∧ route_cost problem tour = Ok c
    ∧ ∀ j perm',
        itertools.permutations (cities problem) !! j = Some perm' →
        head perm' = Some (initial problem) →
        ∃ c', route_cost problem (perm' ++ [initial problem]) = Ok c'
              ∧ c ≤ c' ∧ (c' = c → (i ≤ j)%nat).
Proof.
  unfold tsp_solver. intros (st & Hst & [= Hbest Hcost])%bind_Ok_inv.
  apply for_each_solver_step in Hst.
  destruct st as [m b]. simpl in Hbest, Hcost. subst m b. simpl in Hst.
  destruct Hst as (i & perm & -> & Hi & Hhd & Hc & Hmin).
  by exists i, perm.
Qed.

End valid_instances.

(** ** Degenerate inputs *)

Section degenerate_inputs.

Context {City : Type} `{Countable City}.
Implicit Types (problem : TSPProblem City) (perm : list City).

(** C5, as the code has it. With an empty city list the generator yields
    one permutation, the empty tuple; reading its first element raises
    [IndexError], and [tsp_solver] returns nothing. *)
Theorem tsp_solver_empty_cities problem :
  cities problem = [] →
  itertools.permutations (cities problem) = [[]]
  ∧ tsp_solver problem = Raise IndexError.
Proof. unfold tsp_solver. by intros ->. Qed.

(** C6. When the city list is not empty and the start is not in it, every
    permutation is skipped, and [tsp_solver] returns [(None, inf)] without
    raising, whatever the table holds. *)
Theorem tsp_solver_start_absent problem :
  cities problem ≠ [] → initial problem ∉ cities problem →
  tsp_solver problem = Ok (None, Inf).
Proof.
  intros Hne Hstart. unfold tsp_solver.
  rewrite for_each_unchanged; [done|].
  intros perm Hperm%elem_of_permutations.
  apply solver_step_skip.
  - intros ->. by apply Permutation_nil_l in Hperm.
  - destruct perm as [|c r]; [done|]. simpl. intros [= ->].
    apply Hstart. rewrite <- Hperm. left.
Qed.

End degenerate_inputs.

(** ** The problem model *)

Section model_facts.

Context {City : Type} `{Countable City}.
Implicit Types (problem : TSPProblem City) (state : list City).

(** C7. [actions] returns the cities of the city list that do not occur in
    the state, in the order of the city list; as a set it is the cities
    minus the elements of the state.  It is a function of the problem and
    the state alone.  Neither that the state is non-empty nor that it is
    drawn from the city list is needed. *)
Theorem actions_unvisited problem state :
  (∀ city, city ∈ actions problem state
           ↔ city ∈ cities problem ∧ city ∉ state)
  ∧ list_to_set (actions problem state)
    =@{gset City} list_to_set (cities problem) ∖ list_to_set state
  ∧ actions problem state `sublist_of` cities problem.
Proof.
  assert (∀ city, city ∈ actions problem state
                  ↔ city ∈ cities problem ∧ city ∉ state) as Hin.
  { intros city. unfold actions. rewrite list_elem_of_filter.
    rewrite elem_of_list_to_set. tauto. }
  split_and!; [done| |apply sublist_filter].
  apply set_eq. intros city.
  rewrite elem_of_difference, !elem_of_list_to_set. apply Hin.
Qed.

End model_facts.

(** ** The demonstration and other concrete instances *)

(** The order of the generator, on the example of its documentation. *)
Example permutations_range_3 :
  itertools.permutations [0; 1; 2]
  = [[0; 1; 2]; [0; 2; 1]; [1; 0; 2]; [1; 2; 0]; [2; 0; 1]; [2; 1; 0]].
Proof. reflexivity. Qed.

Example permutations_empty : itertools.permutations (@nil Z) = [[]].
Proof. reflexivity. Qed.

(** The demonstration prints the route A, B, D, C, A and the cost 80; the
    route A, C, D, B, A costs 80 as well and comes later. *)
Example tsp_solver_demo :
  tsp_solver demo = Ok (Some ["A"; "B"; "D"; "C"; "A"], Fin 80).
Proof. vm_compute. reflexivity. Qed.

Example route_cost_demo_reverse :
  route_cost demo ["A"; "C"; "D"; "B"; "A"] = Ok 80.
Proof. vm_compute. reflexivity. Qed.

(** Legs are priced in the direction of travel: on the one-way table the
    round A, C, B costs 3, and the same round taken backwards costs 300. *)
Example tsp_solver_one_way :
  tsp_solver one_way = Ok (Some ["A"; "C"; "B"; "A"], Fin 3)
  ∧ route_cost one_way ["A"; "B"; "C"; "A"] = Ok 300.
Proof. split; vm_compute; reflexivity. Qed.

Lemma valid_instance_demo : valid_instance demo.
Proof. apply valid_instanceb_correct. vm_compute. reflexivity. Qed.

Lemma tsp_solver_minimal_witness :
  ∃ tour c,
    tsp_solver demo = Ok (Some tour, Fin c)
    ∧ route_cost demo tour = Ok c
    ∧ ∀ perm,
        perm ≡ₚ cities demo → head perm = Some (initial demo) →
        ∃ c', route_cost demo (perm ++ [initial demo]) = Ok c' ∧ ¬ c' < c.
Proof.
  apply (tsp_solver_minimal demo).
  apply valid_instanceb_correct. vm_compute. reflexivity.
Defined.

Lemma tsp_solver_tie_break_witness :
  ∃ i perm,
    itertools.permutations (cities demo) !! i = Some perm
    ∧ head perm = Some (initial demo)
    ∧ ["A"; "B"; "D"; "C"; "A"] = perm ++ [initial demo]
    ∧ route_cost demo ["A"; "B"; "D"; "C"; "A"] = Ok 80
    ∧ ∀ j perm',
        itertools.permutations (cities demo) !! j = Some perm' →
        head perm' = Some (initial demo) →
        ∃ c', route_cost demo (perm' ++ [initial demo]) = Ok c'
              ∧ 80 ≤ c' ∧ (c' = 80 → (i ≤ j)%nat).
Proof.
  apply (tsp_solver_tie_break demo ["A"; "B"; "D"; "C"; "A"] 80).
  vm_compute. reflexivity.
Defined.

(** C5 as stated fails: on the empty city list [tsp_solver] does not
    return [(None, inf)]. *)
Lemma tsp_solver_no_cities_not_none :
  cities no_cities = [] ∧ tsp_solver no_cities ≠ Ok (None, Inf).
Proof. split; [reflexivity|discriminate]. Qed.

Lemma tsp_solver_empty_cities_witness :
  itertools.permutations (cities no_cities) = [[]]
  ∧ tsp_solver no_cities = Raise IndexError.
Proof. apply (tsp_solver_empty_cities no_cities). reflexivity. Defined.

Lemma tsp_solver_start_absent_witness : tsp_solver stranger = Ok (None, Inf).
Proof.
  apply (tsp_solver_start_absent stranger).
  - discriminate.
  - apply (bool_decide_unpack _). vm_compute. exact I.
Defined.

Example candidates_demo :
  candidates demo
  = [["A"; "B"; "C"; "D"]; ["A"; "B"; "D"; "C"]; ["A"; "C"; "B"; "D"];
     ["A"; "C"; "D"; "B"]; ["A"; "D"; "B"; "C"]; ["A"; "D"; "C"; "B"]].
Proof. vm_compute. reflexivity. Qed.

(** ** More on the problem model *)

Section more_model_facts.

Context {City : Type} `{Countable City}.
Implicit Types (problem : TSPProblem City) (state route : list City).
Implicit Types (a city : City).

Lemma length_filter_ne (l : list City) a :
  NoDup l → a ∈ l → (length (filter (λ c, c ≠ a) l) + 1 = length l)%nat.
Proof.
  induction 1 as [|x l Hx Hnd IH]; intros Ha.
  { by apply elem_of_nil in Ha. }
  destruct (decide (x = a)) as [->|Hne].
  - rewrite filter_cons_False by (intros Hn; by apply Hn). simpl.
    assert (filter (λ c, c ≠ a) l = l) as ->; [|lia].
    clear -Hx. induction l as [|y l IH]; [done|].
    rewrite filter_cons_True.
    + f_equal. apply IH. intros Hin. apply Hx. by right.
    + intros ->. apply Hx. left.
  - rewrite filter_cons_True by done. simpl.
    apply elem_of_cons in Ha as [->|Ha]; [done|].
    specialize (IH Ha). lia.
Qed.

Lemma filter_unvisited_snoc (l state : list City) a :
  filter (λ c, c ∉ (list_to_set (state ++ [a]) : gset City)) l
  = filter (λ c, c ≠ a)
      (filter (λ c, c ∉ (list_to_set state : gset City)) l).
Proof.
  rewrite list_filter_filter. apply list_filter_iff. intros c.
  rewrite list_to_set_app_L, not_elem_of_union. simpl.
  rewrite union_empty_r_L, not_elem_of_singleton. tauto.
Qed.

Lemma distance_raises problem a b e :
  distance problem a b = Raise e → e = KeyError.
Proof.
  unfold distance. destruct (distances problem !! a) as [row|]; [|congruence].
  destruct (row !! b); congruence.
Qed.


(** The cost of a route with one more city at its end. *)
Lemma route_cost_snoc problem route x a :
  last route = Some x →
  route_cost problem (route ++ [a])
  = route_cost problem route ≫= λ c,
    distance problem x a ≫= λ d, Ok (c + d).
Proof.
  induction route as [|y [|z r] IH]; [done| |].
  - intros [= ->]. simpl.
    destruct (distance problem x a) as [d|e]; simpl; [|done].
    f_equal. lia.
  - intros Hlast.
    change (route_cost problem ((y :: z :: r) ++ [a]))
      with (distance problem y z ≫= λ d,
            route_cost problem ((z :: r) ++ [a]) ≫= λ c, Ok (d + c)).
    change (route_cost problem (y :: z :: r))
      with (distance problem y z ≫= λ d,
            route_cost problem (z :: r) ≫= λ c, Ok (d + c)).
    rewrite IH by done.
    destruct (distance problem y z) as [d1|e]; [|done]. rewrite !bind_Ok.
    destruct (route_cost problem (z :: r)) as [c|e]; [|done].
    rewrite !bind_Ok.
    destruct (distance problem x a) as [d|e]; [|done]. rewrite !bind_Ok.
    f_equal. lia.
Qed.

(** X1. After [result] has added a city to a state, [actions] offers what
    it offered before, in the same order, without that city. *)
Theorem actions_result problem state a :
  actions problem (result state a)
  = filter (λ c, c ≠ a) (actions problem state).
Proof. unfold actions, result. apply filter_unvisited_snoc. Qed.

(** X2. When the cities are distinct, taking one of the offered actions
    leaves exactly one action fewer. *)
Theorem actions_result_length problem state a :
  NoDup (cities problem) → a ∈ actions problem state →
  (length (actions problem (result state a)) + 1
   = length (actions problem state))%nat.
Proof.
  intros Hnd Ha. unfold actions at 1. unfold result.
  rewrite filter_unvisited_snoc. apply length_filter_ne; [|done].
  by apply NoDup_filter.
Qed.

(** X3. Costs add up along a route: the cost of a non-empty state extended
    by [result] is the cost of the state plus the [action_cost] of the
    step; the third argument of [action_cost] plays no part. *)
Theorem route_cost_result problem state a s1 :
  state ≠ [] →
  route_cost problem (result state a)
  = route_cost problem state ≫= λ c,
    action_cost problem state a s1 ≫= λ d, Ok (c + d).
Proof.
  intros Hne. unfold result, action_cost.
  destruct (last state) as [x|] eqn:Hlast.
  - by apply route_cost_snoc.
  - by apply last_None in Hlast.
Qed.

(** X4. [action_cost] raises [IndexError] on the empty state and on no
    other: there the only exception is the [KeyError] of a missing
    entry. *)
Theorem action_cost_IndexError problem state a s1 :
  action_cost problem state a s1 = Raise IndexError ↔ state = [].
Proof.
  unfold action_cost. split.
  - destruct (last state) as [x|] eqn:Hlast.
    + intros Hd%distance_raises. discriminate.
    + intros _. by apply last_None.
  - by intros ->.
Qed.

End more_model_facts.

(** ** The model as a search space *)

Section search_space.

Context {City : Type} `{Countable City}.
Implicit Types (problem : TSPProblem City) (s state tour : list City).

Lemma NoDup_head_last s : NoDup s → (2 ≤ length s)%nat → head s ≠ last s.
Proof.
  intros Hnd Hlen Heq.
  destruct s as [|x s']; [simpl in Hlen; lia|].
  apply NoDup_cons in Hnd as [Hx _].
  symmetry in Heq. apply last_Some in Heq as [l' Hl'].
  destruct l' as [|y l'].
  - simplify_eq/=. lia.
  - simplify_eq/=. apply Hx, elem_of_app. right. left.
Qed.

(** A state without a repeated city is not a goal. *)
Lemma is_goal_NoDup problem s :
  cities problem ≠ [] → NoDup s → is_goal problem s = false.
Proof.
  intros Hne Hnd. unfold is_goal.
  apply andb_false_iff.
  destruct (decide (length s = S (length (cities problem)))) as [Hlen|Hlen].
  - right. apply bool_decide_eq_false. apply NoDup_head_last; [done|].
    destruct (cities problem); [done|]. simpl in Hlen. lia.
  - left. by apply bool_decide_eq_false.
Qed.

Lemma expands_NoDup problem s s' :
  NoDup s → expands problem s s' → NoDup s'.
Proof.
  intros Hnd (a & Ha & ->). unfold result.
  apply NoDup_app. split_and!; [done| |apply NoDup_singleton].
  intros x Hx ->%list_elem_of_singleton.
  unfold actions in Ha. apply list_elem_of_filter in Ha as [Ha _].
  apply Ha. by apply elem_of_list_to_set.
Qed.

Lemma tsp_solver_invariant problem best m :
  tsp_solver problem = Ok (best, m) →
  loop_invariant problem (itertools.permutations (cities problem)) (m, best).
Proof.
  unfold tsp_solver. intros (st & Hst & [= <- <-])%bind_Ok_inv.
  apply for_each_solver_step in Hst. by destruct st.
Qed.

(** X5. A search that starts from a state without a repeated city and
    only takes cities offered by [actions] never reaches a state accepted
    by [is_goal]: [actions] never offers the start again, so no state it
    leads to ends where it began. *)
Theorem expands_never_goal problem s0 s :
  cities problem ≠ [] → NoDup s0 → rtc (expands problem) s0 s →
  NoDup s ∧ is_goal problem s = false.
Proof.
  intros Hne Hnd Hreach.
  assert (NoDup s) as Hnd'.
  { induction Hreach as [|s1 s2 s3 Hstep _ IH]; [done|].
    apply IH. by eapply expands_NoDup. }
  split; [done|]. by apply is_goal_NoDup.
Qed.

(** X6. Whenever [tsp_solver] returns a tour, [is_goal] accepts it. *)
Theorem tsp_solver_is_goal problem tour m :
  tsp_solver problem = Ok (Some tour, m) → is_goal problem tour = true.
Proof.
  intros Hinv%tsp_solver_invariant. destruct m as [c|]; [|done].
  destruct Hinv as (i & perm & -> & Hi & Hhd & _).
  apply list_elem_of_lookup_2, elem_of_permutations in Hi.
  unfold is_goal. apply andb_true_iff. split; apply bool_decide_eq_true.
  - rewrite length_app, Hi. simpl. lia.
  - rewrite last_snoc. destruct perm; [done|]. by simpl in *.
Qed.

End search_space.

(** ** More on the solver *)

Section more_solver_facts.

Context {City : Type} `{Countable City}.
Implicit Types (problem : TSPProblem City) (perm path route : list City).



Lemma filter_ne_notin (l : list City) a :
  a ∉ l → filter (λ c, c ≠ a) l = l.
Proof.
  induction l as [|y l IH]; intros Ha; [done|].
  rewrite filter_cons_True.
  - f_equal. apply IH. intros Hin. apply Ha. by right.
  - intros ->. apply Ha. left.
Qed.

Lemma distance_nonnegative problem a b d :
  nonnegative_table problem → distance problem a b = Ok d → 0 ≤ d.
Proof.
  intros Htable. unfold distance.
  destruct (distances problem !! a) as [row|] eqn:Hrow; [|done].
  destruct (row !! b) as [d'|] eqn:Hd; [|done]. intros [= <-].
  by apply (Htable a row Hrow b d').
Qed.

Lemma route_cost_nonnegative problem route c :
  nonnegative_table problem → route_cost problem route = Ok c → 0 ≤ c.
Proof.
  intros Htable. revert c.
  induction route as [|x [|y r] IH]; intros c; [by intros [= <-]..|].
  change (route_cost problem (x :: y :: r))
    with (distance problem x y ≫= λ d,
          route_cost problem (y :: r) ≫= λ c, Ok (d + c)).
  intros (d & Hd & (c' & Hc' & [= <-])%bind_Ok_inv)%bind_Ok_inv.
  apply distance_nonnegative in Hd; [|done]. specialize (IH _ Hc'). lia.
Qed.

Lemma route_cost_ext problem1 problem2 route :
  (∀ i a b, route !! i = Some a → route !! S i = Some b →
     distance problem1 a b = distance problem2 a b) →
  route_cost problem1 route = route_cost problem2 route.
Proof.
  induction route as [|x route IH]; intros Hlegs; [done|].
  destruct route as [|y r]; [done|].
  change (route_cost problem1 (x :: y :: r))
    with (distance problem1 x y ≫= λ d,
          route_cost problem1 (y :: r) ≫= λ c, Ok (d + c)).
  change (route_cost problem2 (x :: y :: r))
    with (distance problem2 x y ≫= λ d,
          route_cost problem2 (y :: r) ≫= λ c, Ok (d + c)).
  rewrite (Hlegs 0%nat x y) by done. rewrite IH; [done|].
  intros i a b Ha Hb. by apply (Hlegs (S i)).
Qed.

(** The legs of a closed tour over distinct cities, two at least, join
    different cities of the tour. *)
Lemma closed_tour_legs perm s i a b :
  NoDup perm → (2 ≤ length perm)%nat → head perm = Some s →
  (perm ++ [s]) !! i = Some a → (perm ++ [s]) !! S i = Some b →
  a ≠ b ∧ a ∈ perm ∧ b ∈ perm.
Proof.
  intros Hnd Hlen Hhd Ha Hb.
  assert (perm !! 0%nat = Some s) as Hhd0 by by rewrite <- head_lookup.
  assert (S i < length (perm ++ [s]))%nat as Hi by by eapply lookup_lt_Some.
  rewrite length_app in Hi. simpl in Hi.
  rewrite lookup_app_l in Ha by lia.
  destruct (decide (S i < length perm)%nat) as [Hlt|Hlt].
  - rewrite lookup_app_l in Hb by lia. split_and!.
    + intros ->. pose proof (NoDup_lookup _ _ _ _ Hnd Ha Hb). lia.
    + by eapply list_elem_of_lookup_2.
    + by eapply list_elem_of_lookup_2.
  - rewrite lookup_app_r in Hb by lia.
    replace (S i - length perm)%nat with 0%nat in Hb by lia.
    injection Hb as <-. split_and!.
    + intros ->. pose proof (NoDup_lookup _ _ _ _ Hnd Ha Hhd0). lia.
    + by eapply list_elem_of_lookup_2.
    + by eapply list_elem_of_lookup_2.
Qed.


(** X9. When no entry of the table is negative, the returned cost is not
    negative. *)
Theorem tsp_solver_nonnegative problem tour c :
  nonnegative_table problem →
  tsp_solver problem = Ok (Some tour, Fin c) → 0 ≤ c.
Proof.
  intros Htable Hinv%tsp_solver_invariant.
  destruct Hinv as (i & perm & -> & _ & _ & Hc & _).
  by eapply route_cost_nonnegative.
Qed.

(** X11. With two or more distinct cities the solver reads the table only
    at pairs of different cities of the list: the distances from a city to
    itself and the entries of other cities do not change what it returns
    or raises. *)
Theorem tsp_solver_reads_listed_pairs problem1 problem2 :
  NoDup (cities problem1) → (2 ≤ length (cities problem1))%nat →
  cities problem1 = cities problem2 →
  initial problem1 = initial problem2 →
  (∀ a b, a ∈ cities problem1 → b ∈ cities problem1 → a ≠ b →
     distance problem1 a b = distance problem2 a b) →
  tsp_solver problem1 = tsp_solver problem2.
Proof.
  intros Hnd Hlen Hcities Hstart Htable. unfold tsp_solver.
  rewrite <- Hcities. f_equal. apply for_each_ext.
  intros st perm Hperm%elem_of_permutations.
  assert (perm ≠ []) as Hne.
  { intros ->. apply Permutation_nil_l in Hperm.
    rewrite <- Hperm in Hlen. simpl in Hlen. lia. }
  destruct (decide (head perm = Some (initial problem1))) as [Hhd|Hhd].
  - rewrite !solver_step_candidate by congruence. rewrite <- Hstart.
    rewrite (route_cost_ext problem1 problem2); [done|].
    intros i a b Ha Hb.
    destruct (closed_tour_legs perm (initial problem1) i a b)
      as (Hab & Hain & Hbin); [by rewrite Hperm|by rewrite Hperm|done..|].
    apply Htable; [by rewrite <- Hperm|by rewrite <- Hperm|done].
  - rewrite !solver_step_skip; first [done|congruence].
Qed.

(** X12. On a valid instance the returned cost does not depend on the
    order in which the cities are listed; the returned tour may. *)
Theorem tsp_solver_order_independent problem1 problem2 :
  valid_instance problem1 →
  cities problem1 ≡ₚ cities problem2 →
  distances problem1 = distances problem2 →
  initial problem1 = initial problem2 →
  ∃ tour1 tour2 c,
    tsp_solver problem1 = Ok (Some tour1, Fin c)
    ∧ tsp_solver problem2 = Ok (Some tour2, Fin c).
Proof.
  intros Hvalid Hcities Htable Hstart.
  assert (∀ a b, distance problem1 a b = distance problem2 a b) as Hdist.
  { intros a b. unfold distance. by rewrite Htable. }
  assert (∀ route, route_cost problem1 route = route_cost problem2 route)
    as Hcost.
  { intros route. apply route_cost_ext. intros. apply Hdist. }
  assert (valid_instance problem2) as Hvalid2.
  { destruct Hvalid as [Hsize Hnd Hin Hall].
    split; rewrite <- ?Hcities, <- ?Hstart; [done..|].
    intros a b. rewrite <- Hcities, <- Hdist. apply Hall. }
  destruct (tsp_solver_valid problem1 Hvalid)
    as (i1 & perm1 & c1 & Hrun1 & Hi1 & Hhd1 & Hc1 & Hmin1).
  destruct (tsp_solver_valid problem2 Hvalid2)
    as (i2 & perm2 & c2 & Hrun2 & Hi2 & Hhd2 & Hc2 & Hmin2).
  assert (c1 = c2) as <-.
  { apply list_elem_of_lookup_2, elem_of_permutations in Hi1 as Hp1.
    apply list_elem_of_lookup_2, elem_of_permutations in Hi2 as Hp2.
    rewrite Hcities in Hp1. rewrite <- Hcities in Hp2.
    apply elem_of_permutations, list_elem_of_lookup in Hp1 as [j1 Hj1].
    apply elem_of_permutations, list_elem_of_lookup in Hp2 as [j2 Hj2].
    destruct (Hmin2 j1 perm1 Hj1) as (c' & Hc' & Hle2 & _); [congruence|].
    destruct (Hmin1 j2 perm2 Hj2) as (c'' & Hc'' & Hle1 & _); [congruence|].
    rewrite <- Hstart, <- Hcost, Hc1 in Hc'.
    rewrite Hstart, Hcost, Hc2 in Hc''.
    injection Hc' as <-. injection Hc'' as <-. lia. }
  by eexists _, _, c1.
Qed.

(** X13. With distinct cities and the start among them, filtering all the
    permutations by their first element gives what putting the start in
    front of the permutations of the other cities gives: the same tour and
    cost, or the same exception. *)
Theorem tsp_solver_start_first_eq problem :
  NoDup (cities problem) → initial problem ∈ cities problem →
  tsp_solver problem = tsp_solver_start_first problem.
Proof.
  intros Hnd Hstart. unfold tsp_solver, tsp_solver_start_first.
  rewrite for_each_candidates.
  2: { intros Hnil. rewrite Hnil in Hstart. by apply elem_of_nil in Hstart. }
  f_equal. f_equal. unfold candidates.
  destruct (list_elem_of_split _ _ Hstart) as (l1 & l2 & Hcities).
  rewrite Hcities in Hnd |- *.
  apply NoDup_app in Hnd as (_ & Hd & [Hl2 _]%NoDup_cons).
  assert (initial problem ∉ l1) as Hl1.
  { intros Hin. apply (Hd _ Hin). left. }
  rewrite filter_head_permutations by done.
  rewrite filter_app, filter_cons_False by (intros Hn; by apply Hn).
  by rewrite !filter_ne_notin.
Qed.

End more_solver_facts.

(** ** The heuristic *)

Section heuristic.

Context {City : Type} `{Countable City}.
Implicit Types (problem : TSPProblem City) (state rest : list City).

(** X14. When no entry of the table is negative, the cost of a route does
    not decrease as the route is extended, so the estimate [h] of what is
    left to pay never exceeds what any continuation does cost. *)
Theorem h_lower_bound problem state rest c0 c :
  nonnegative_table problem →
  route_cost problem state = Ok c0 →
  route_cost problem (state ++ rest) = Ok c →
  c0 + h state ≤ c.
Proof.
  intros Htable Hc0. unfold h. revert c.
  induction rest as [|a rest IH] using rev_ind; intros c.
  { rewrite app_nil_r, Hc0. intros [= <-]. lia. }
  rewrite app_assoc.
  destruct (last (state ++ rest)) as [x|] eqn:Hlast.
  - rewrite (route_cost_snoc _ _ x) by done.
    intros (c1 & Hc1 & (d & Hd & [= <-])%bind_Ok_inv)%bind_Ok_inv.
    specialize (IH _ Hc1). apply distance_nonnegative in Hd; [lia|done].
  - apply last_None, app_eq_nil in Hlast as [-> ->].
    injection Hc0 as <-. by intros [= <-].
Qed.

End heuristic.

(** ** The further properties on concrete instances *)

Ltac by_computation := apply (bool_decide_unpack _); vm_compute; exact I.

Lemma actions_result_length_witness :
  (length (actions demo (result ["A"] "B")) + 1
   = length (actions demo ["A"]))%nat.
Proof.
  apply (actions_result_length demo ["A"] "B"); by_computation.
Defined.

Lemma route_cost_result_witness :
  route_cost demo (result ["A"; "B"] "D")
  = route_cost demo ["A"; "B"] ≫= λ c,
    action_cost demo ["A"; "B"] "D" ["A"; "B"; "D"] ≫= λ d, Ok (c + d).
Proof.
  apply (route_cost_result demo ["A"; "B"] "D" ["A"; "B"; "D"]).
  discriminate.
Defined.

Lemma expands_never_goal_witness :
  NoDup ["A"; "B"; "C"; "D"]
  ∧ is_goal demo ["A"; "B"; "C"; "D"] = false.
Proof.
  apply (expands_never_goal demo ["A"] ["A"; "B"; "C"; "D"]).
  - discriminate.
  - by_computation.
  - apply (rtc_l _ _ ["A"; "B"]).
    { exists "B". split; [by_computation|reflexivity]. }
    apply (rtc_l _ _ ["A"; "B"; "C"]).
    { exists "C". split; [by_computation|reflexivity]. }
    apply rtc_once.
    exists "D". split; [by_computation|reflexivity].
Defined.

Lemma tsp_solver_is_goal_witness :
  is_goal demo ["A"; "B"; "D"; "C"; "A"] = true.
Proof.
  apply (tsp_solver_is_goal demo ["A"; "B"; "D"; "C"; "A"] (Fin 80)).
  vm_compute. reflexivity.
Defined.

(** A leg missing from a tour that is not the cheapest still stops the
    search. *)
Example tsp_solver_gap :
  route_cost gap ["A"; "B"; "C"; "A"] = Ok 3
  ∧ tsp_solver gap = Raise KeyError.
Proof. split; vm_compute; reflexivity. Qed.

Lemma tsp_solver_nonnegative_witness : 0 ≤ 80.
Proof.
  apply (tsp_solver_nonnegative demo ["A"; "B"; "D"; "C"; "A"] 80).
  - unfold nonnegative_table. by_computation.
  - vm_compute. reflexivity.
Defined.

Lemma tsp_solver_reads_listed_pairs_witness :
  tsp_solver demo = tsp_solver demo_diagonal.
Proof.
  apply (tsp_solver_reads_listed_pairs demo demo_diagonal).
  - by_computation.
  - simpl. lia.
  - reflexivity.
  - reflexivity.
  - intros a b Ha Hb Hab.
    repeat (apply elem_of_cons in Ha as [->|Ha]);
      try (by apply elem_of_nil in Ha);
      repeat (apply elem_of_cons in Hb as [->|Hb]);
      try (by apply elem_of_nil in Hb);
      try (vm_compute; reflexivity);
      by destruct Hab.
Defined.

Lemma tsp_solver_order_independent_witness :
  ∃ tour1 tour2 c,
    tsp_solver demo = Ok (Some tour1, Fin c)
    ∧ tsp_solver demo_reordered = Ok (Some tour2, Fin c).
Proof.
  apply (tsp_solver_order_independent demo demo_reordered).
  - apply valid_instanceb_correct. vm_compute. reflexivity.
  - by_computation.
  - reflexivity.
  - reflexivity.
Defined.

Lemma tsp_solver_start_first_eq_witness :
  tsp_solver demo = tsp_solver_start_first demo.
Proof.
  apply (tsp_solver_start_first_eq demo); by_computation.
Defined.

Lemma h_lower_bound_witness : 10 + h ["A"; "B"] ≤ 80.
Proof.
  apply (h_lower_bound demo ["A"; "B"] ["D"; "C"; "A"] 10 80).
  - unfold nonnegative_table. by_computation.
  - vm_compute. reflexivity.
  - vm_compute. reflexivity.
Defined.

(** ** The solver over any kind of number *)

Section generic_facts.

Context {City : Type} `{Countable City} {N : Type} `{Number N}.
Implicit Types (problem : Generic.TSPProblem City N).
Implicit Types (perm path route tour : list City).

Lemma gen_sum_gen_ext (f g : nat → outcome N) idxs acc :
  (∀ i, i ∈ idxs → f i = g i) →
  Generic.sum_gen f idxs acc = Generic.sum_gen g idxs acc.
Proof.
  revert acc. induction idxs as [|i idxs IH]; intros acc Hl; [done|]. simpl.
  rewrite Hl by left. destruct (g i); [|done]. rewrite !bind_Ok.
  apply IH. intros j Hj. apply Hl. by right.
Qed.

Lemma gen_sum_gen_fmap (f : nat → outcome N) (g : nat → nat) idxs acc :
  Generic.sum_gen f (g <$> idxs) acc = Generic.sum_gen (f ∘ g) idxs acc.
Proof.
  revert acc. induction idxs as [|i idxs IH]; intros acc; [done|]. simpl.
  destruct (f (g i)); [|done]. rewrite !bind_Ok. apply IH.
Qed.

Lemma gen_sum_gen_legs_cost problem path acc :
  Generic.sum_gen
    (λ i, index path i ≫= λ a, index path (i + 1)%nat ≫= λ b,
          Generic.distance problem a b)
    (seq 0 (length path - 1)) acc
  = Generic.legs_cost problem acc path.
Proof.
  revert acc. induction path as [|a path IH]; intros acc; [done|].
  destruct path as [|b r]; [done|].
  replace (length (a :: b :: r) - 1)%nat with (S (length r))
    by (simpl; lia).
  replace (length (b :: r) - 1)%nat with (length r) in IH by (simpl; lia).
  rewrite <- cons_seq, <- fmap_S_seq.
  change (Generic.legs_cost problem acc (a :: b :: r))
    with (Generic.distance problem a b ≫= λ d,
          Generic.legs_cost problem (num_add acc d) (b :: r)).
  simpl Generic.sum_gen.
  destruct (Generic.distance problem a b) as [d|e]; [|done].
  rewrite !bind_Ok, gen_sum_gen_fmap, <- IH.
  by apply gen_sum_gen_ext.
Qed.

(** The sum over the indices is the sum over the legs, from the left. *)
Lemma gen_path_cost_legs_cost problem path :
  Generic.path_cost problem path
  = Generic.legs_cost problem num_zero path.
Proof. apply gen_sum_gen_legs_cost. Qed.

Lemma gen_distance_raises problem a b e :
  Generic.distance problem a b = Raise e → e = KeyError.
Proof.
  unfold Generic.distance.
  destruct (Generic.distances problem !! a) as [row|]; [|congruence].
  destruct (row !! b); congruence.
Qed.

Lemma gen_legs_cost_raises problem acc route e :
  Generic.legs_cost problem acc route = Raise e → e = KeyError.
Proof.
  revert acc. induction route as [|x route IH]; intros acc; [done|].
  destruct route as [|y r]; [done|].
  change (Generic.legs_cost problem acc (x :: y :: r))
    with (Generic.distance problem x y ≫= λ d,
          Generic.legs_cost problem (num_add acc d) (y :: r)).
  destruct (Generic.distance problem x y) as [d|e'] eqn:Hd.
  - rewrite bind_Ok. apply IH.
  - intros [= ->]. by eapply gen_distance_raises.
Qed.

Lemma gen_legs_cost_snoc problem acc route x a :
  last route = Some x →
  Generic.legs_cost problem acc (route ++ [a])
  = Generic.legs_cost problem acc route ≫= λ c,
    Generic.distance problem x a ≫= λ d, Ok (num_add c d).
Proof.
  revert acc. induction route as [|y route IH]; intros acc; [done|].
  destruct route as [|z r].
  - intros [= ->]. simpl.
    by destruct (Generic.distance problem x a).
  - intros Hlast.
    change (Generic.legs_cost problem acc ((y :: z :: r) ++ [a]))
      with (Generic.distance problem y z ≫= λ d,
            Generic.legs_cost problem (num_add acc d) ((z :: r) ++ [a])).
    change (Generic.legs_cost problem acc (y :: z :: r))
      with (Generic.distance problem y z ≫= λ d,
            Generic.legs_cost problem (num_add acc d) (z :: r)).
    destruct (Generic.distance problem y z) as [d1|e]; [|done].
    rewrite !bind_Ok. by apply IH.
Qed.

Lemma gen_legs_cost_Ok problem acc route :
  (∀ i a b, route !! i = Some a → route !! S i = Some b →
     ∃ d, Generic.distance problem a b = Ok d) →
  ∃ c, Generic.legs_cost problem acc route = Ok c.
Proof.
  revert acc. induction route as [|a route IH]; intros acc Hlegs;
    [by eexists|].
  destruct route as [|b rest]; [by eexists|].
  destruct (Hlegs 0%nat a b) as [d Hd]; [done..|].
  change (Generic.legs_cost problem acc (a :: b :: rest))
    with (Generic.distance problem a b ≫= λ d,
          Generic.legs_cost problem (num_add acc d) (b :: rest)).
  rewrite Hd, bind_Ok. apply IH.
  intros i a' b' Ha' Hb'. by apply (Hlegs (S i)).
Qed.

(** What a sum over the legs is made of: one entry of the table for each
    pair of neighbours, found in the row of the first under the key of the
    second, and added from the left. *)
Lemma gen_legs_cost_lookups problem acc route m :
  Generic.legs_cost problem acc route = Ok m →
  ∃ legs : list N,
    length legs = (length route - 1)%nat
    ∧ (∀ i a b, route !! i = Some a → route !! S i = Some b →
         ∃ row d, Generic.distances problem !! a = Some row
                  ∧ row !! b = Some d ∧ legs !! i = Some d)
    ∧ m = foldl num_add acc legs.
Proof.
  revert acc. induction route as [|a route IH]; intros acc.
  { intros [= <-]. exists []. by split_and!. }
  destruct route as [|b rest].
  { intros [= <-]. exists []. by split_and!. }
  change (Generic.legs_cost problem acc (a :: b :: rest))
    with (Generic.distance problem a b ≫= λ d,
          Generic.legs_cost problem (num_add acc d) (b :: rest)).
  intros (d & Hd & Hrest)%bind_Ok_inv.
  destruct (IH _ Hrest) as (legs & Hlen & Hlegs & ->).
  exists (d :: legs). split_and!.
  - simpl in *. lia.
  - intros [|i] a' b' Ha' Hb'.
    + simpl in Ha', Hb'. injection Ha' as <-. injection Hb' as <-.
      unfold Generic.distance in Hd.
      destruct (Generic.distances problem !! a) as [row|]; [|done].
      destruct (row !! b) as [d'|] eqn:Hrow; [|done].
      injection Hd as ->. by exists row, d.
    + by apply (Hlegs i).
  - done.
Qed.

Lemma gen_solver_step_skip problem st perm :
  perm ≠ [] → head perm ≠ Some (Generic.initial problem) →
  Generic.solver_step problem st perm = Ok st.
Proof.
  destruct perm as [|c r]; [done|]. intros _ Hc.
  unfold Generic.solver_step.
  change (index (c :: r) 0) with (Ok c). rewrite bind_Ok.
  rewrite bool_decide_eq_true_2; [done|]. simpl in Hc. congruence.
Qed.

Lemma gen_solver_step_priced problem st perm :
  head perm = Some (Generic.initial problem) →
  Generic.solver_step problem st perm =
    Generic.path_cost problem (perm ++ [Generic.initial problem]) ≫= λ cost,
    Ok (if num_ltb cost st.1
        then (cost, Some (perm ++ [Generic.initial problem])) else st).
Proof.
  destruct perm as [|c r]; [done|]. intros [= ->].
  unfold Generic.solver_step.
  change (index (Generic.initial problem :: r) 0)
    with (Ok (Generic.initial problem)).
  rewrite bind_Ok.
  rewrite bool_decide_eq_false_2 by (intros Hne; by apply Hne).
  destruct (Generic.path_cost _ _) as [cost|e]; [|done]. rewrite !bind_Ok.
  by destruct (num_ltb cost st.1).
Qed.

(** What the loop of the solver has established when it ends: either no
    permutation that begins with the start has a sum below [math.inf], and
    the state is as at the beginning; or the state holds one of them with
    its sum, and one of them has a sum below [math.inf]. *)
Lemma gen_for_each_solver_step problem l m best :
  for_each (Generic.solver_step problem) (num_inf, None) l = Ok (m, best) →
  (best = None ∧ m = num_inf
   ∧ ∀ perm c, perm ∈ l → head perm = Some (Generic.initial problem) →
       Generic.path_cost problem (perm ++ [Generic.initial problem]) = Ok c →
       num_ltb c num_inf = false)
  ∨ ((∃ perm, perm ∈ l ∧ head perm = Some (Generic.initial problem)
        ∧ best = Some (perm ++ [Generic.initial problem])
        ∧ Generic.path_cost problem (perm ++ [Generic.initial problem])
          = Ok m)
     ∧ ∃ perm c, perm ∈ l ∧ head perm = Some (Generic.initial problem)
        ∧ Generic.path_cost problem (perm ++ [Generic.initial problem])
          = Ok c
        ∧ num_ltb c num_inf = true).
Proof.
  revert m best. induction l as [|x l IH] using rev_ind; intros m best.
  { intros [= <- <-]. left. split_and!; [done..|].
    intros perm c Hperm. by apply elem_of_nil in Hperm. }
  rewrite for_each_snoc. intros ([m0 best0] & Hl & Hx)%bind_Ok_inv.
  specialize (IH _ _ Hl).
  destruct (decide (head x = Some (Generic.initial problem))) as [Hhd|Hhd].
  - rewrite gen_solver_step_priced in Hx by done.
    apply bind_Ok_inv in Hx as (cost & Hcost & Hx). simpl in Hx.
    destruct (num_ltb cost m0) eqn:Hlt; injection Hx as <- <-.
    + right. split.
      * exists x. split_and!; [|done..]. apply elem_of_app. right. left.
      * destruct IH as [(_ & -> & _)|[_ (perm & c & Hperm & ?)]].
        -- exists x, cost. split_and!; [|done..].
           apply elem_of_app. right. left.
        -- exists perm, c. split_and!; [|tauto..].
           apply elem_of_app. by left.
    + destruct IH as [(-> & -> & Hall)|[(perm & Hperm & ?) (p' & c & Hp' & ?)]].
      * left. split_and!; [done..|].
        intros perm c [Hperm|Hperm%list_elem_of_singleton]%elem_of_app.
        -- by apply Hall.
        -- subst perm. intros _. rewrite Hcost. by intros [= <-].
      * right. split.
        -- exists perm. split_and!; [|tauto..]. apply elem_of_app. by left.
        -- exists p', c. split_and!; [|tauto..]. apply elem_of_app. by left.
  - destruct x as [|c0 r]; [done|].
    rewrite gen_solver_step_skip in Hx by done. injection Hx as <- <-.
    destruct IH as [(-> & -> & Hall)|[(perm & Hperm & ?) (p' & c & Hp' & ?)]].
    + left. split_and!; [done..|].
      intros perm c [Hperm|Hperm%list_elem_of_singleton]%elem_of_app.
      * by apply Hall.
      * by subst perm.
    + right. split.
      * exists perm. split_and!; [|tauto..]. apply elem_of_app. by left.
      * exists p', c. split_and!; [|tauto..]. apply elem_of_app. by left.
Qed.

Lemma gen_for_each_solver_step_Ok problem l st0 :
  (∀ perm, perm ∈ l → perm ≠ []) →
  (∀ perm, perm ∈ l → head perm = Some (Generic.initial problem) →
     ∃ c, Generic.path_cost problem (perm ++ [Generic.initial problem])
          = Ok c) →
  ∃ st, for_each (Generic.solver_step problem) st0 l = Ok st.
Proof.
  revert st0. induction l as [|x l IH]; intros st0 Hne Hc; [by eexists|].
  simpl.
  assert (∃ st1, Generic.solver_step problem st0 x = Ok st1) as [st1 ->].
  { destruct (decide (head x = Some (Generic.initial problem))) as [Hhd|Hhd].
    - rewrite gen_solver_step_priced by done.
      destruct (Hc x) as [c ->]; [left|done|]. by eexists.
    - rewrite gen_solver_step_skip; [by eexists|apply Hne; left|done]. }
  rewrite bind_Ok. apply IH.
  - intros perm Hperm. apply Hne. by right.
  - intros perm Hperm. apply Hc. by right.
Qed.

Lemma gen_valid_candidate_cost problem perm :
  Generic.valid_instance problem →
  perm ≡ₚ Generic.cities problem →
  head perm = Some (Generic.initial problem) →
  ∃ c, Generic.path_cost problem (perm ++ [Generic.initial problem]) = Ok c.
Proof.
  intros [Hsize Hnd Hstart Htable] Hperm Hhd.
  rewrite gen_path_cost_legs_cost. apply gen_legs_cost_Ok.
  intros i a b Ha Hb.
  destruct (closed_tour_legs perm (Generic.initial problem) i a b)
    as (Hab & Hain & Hbin); [by rewrite Hperm|by rewrite Hperm|done..|].
  apply Htable; [by rewrite <- Hperm|by rewrite <- Hperm|done].
Qed.

Lemma gen_tsp_solver_invariant problem best m :
  Generic.tsp_solver problem = Ok (best, m) →
  for_each (Generic.solver_step problem) (num_inf, None)
    (itertools.permutations (Generic.cities problem)) = Ok (m, best).
Proof.
  unfold Generic.tsp_solver.
  intros ([m' best'] & Hst & [= <- <-])%bind_Ok_inv. done.
Qed.

(** On a valid instance the solver raises nothing. *)
Lemma gen_tsp_solver_valid problem :
  Generic.valid_instance problem →
  ∃ best m, Generic.tsp_solver problem = Ok (best, m).
Proof.
  intros Hvalid. unfold Generic.tsp_solver.
  destruct (gen_for_each_solver_step_Ok problem
              (itertools.permutations (Generic.cities problem))
              (num_inf, None)) as [[m best] Hst].
  { intros perm Hperm%elem_of_permutations ->.
    apply Permutation_nil_l in Hperm. destruct Hvalid as [Hsize _ _ _].
    rewrite <- Hperm in Hsize. simpl in Hsize. lia. }
  { intros perm Hperm%elem_of_permutations.
    by apply gen_valid_candidate_cost. }
  exists best, m. by rewrite Hst.
Qed.

(** On a valid instance with a candidate whose sum is below [math.inf],
    the solver returns the closure of a permutation of the cities that
    begins with the start, with its sum. *)
Lemma gen_tsp_solver_finite problem perm0 :
  Generic.valid_instance problem →
  Generic.finite_candidate problem perm0 →
  ∃ perm m,
    Generic.tsp_solver problem
    = Ok (Some (perm ++ [Generic.initial problem]), m)
    ∧ perm ≡ₚ Generic.cities problem
    ∧ head perm = Some (Generic.initial problem)
    ∧ Generic.path_cost problem (perm ++ [Generic.initial problem]) = Ok m.
Proof.
  intros Hvalid (Hperm0 & Hhd0 & c0 & Hc0 & Hlt0).
  destruct (gen_tsp_solver_valid problem Hvalid) as (best & m & Hrun).
  assert (Hinv := Hrun).
  apply gen_tsp_solver_invariant, gen_for_each_solver_step in Hinv.
  destruct Hinv as [(_ & _ & Hall)|[(perm & Hperm & Hhd & -> & Hm) _]].
  - rewrite (Hall perm0 c0) in Hlt0; [done| |done..].
    by apply elem_of_permutations.
  - exists perm, m. split_and!; [done| |done..].
    by apply elem_of_permutations.
Qed.

Lemma gen_valid_instanceb_correct problem :
  Generic.valid_instanceb problem = true → Generic.valid_instance problem.
Proof.
  unfold Generic.valid_instanceb.
  rewrite !andb_true_iff, !bool_decide_eq_true.
  intros [[[Hsize Hnd] Hstart] Htable]. split; [done..|].
  intros a b Ha Hb Hab.
  rewrite forallb_forall in Htable.
  apply list_elem_of_In, Htable in Ha. rewrite forallb_forall in Ha.
  apply list_elem_of_In, Ha in Hb.
  apply orb_true_iff in Hb as [Heq%bool_decide_eq_true|Hok]; [done|].
  destruct (Generic.distance problem a b) as [d|e]; [by exists d|done].
Qed.

Lemma gen_legs_cost_acc problem x y route :
  (∀ a b c : N, num_add a (num_add b c) = num_add (num_add a b) c) →
  Generic.legs_cost problem (num_add x y) route
  = Generic.legs_cost problem y route ≫= λ c, Ok (num_add x c).
Proof.
  intros Hassoc. revert y.
  induction route as [|a route IH]; intros y; [done|].
  destruct route as [|b r]; [done|].
  change (Generic.legs_cost problem (num_add x y) (a :: b :: r))
    with (Generic.distance problem a b ≫= λ d,
          Generic.legs_cost problem (num_add (num_add x y) d) (b :: r)).
  change (Generic.legs_cost problem y (a :: b :: r))
    with (Generic.distance problem a b ≫= λ d,
          Generic.legs_cost problem (num_add y d) (b :: r)).
  destruct (Generic.distance problem a b) as [d|e]; [|done].
  rewrite !bind_Ok, <- Hassoc. apply IH.
Qed.

(** C2, for any numbers. On an instance with at least two distinct
    cities, a complete table and the start among the cities, on which some
    tour from the start has a sum below [math.inf], the returned tour has
    one element more than there are cities, begins and ends with the
    start, and every city occurs exactly once among its other elements,
    which are a rearrangement of the city list. *)
Theorem tsp_solver_finite_tour_shape problem perm0 :
  Generic.valid_instance problem →
  Generic.finite_candidate problem perm0 →
  ∃ tour m,
    Generic.tsp_solver problem = Ok (Some tour, m)
    ∧ length tour = S (length (Generic.cities problem))
    ∧ head tour = Some (Generic.initial problem)
    ∧ last tour = Some (Generic.initial problem)
    ∧ take (length (Generic.cities problem)) tour
      ≡ₚ Generic.cities problem
    ∧ ∀ city, city ∈ Generic.cities problem →
        occurrences city (take (length (Generic.cities problem)) tour)
        = 1%nat.
Proof.
  intros Hvalid Hfinite.
  destruct (gen_tsp_solver_finite problem perm0 Hvalid Hfinite)
    as (perm & m & Hrun & Hperm & Hhd & _).
  assert (length perm = length (Generic.cities problem)) as Hlen
    by by rewrite Hperm.
  exists (perm ++ [Generic.initial problem]), m. split; [done|].
  rewrite <- Hlen, take_app_length. split_and!.
  - rewrite length_app. simpl. lia.
  - destruct perm; [done|]. by simpl in *.
  - by rewrite last_snoc.
  - done.
  - intros city Hcity. unfold occurrences.
    assert (NoDup perm) as Hnd.
    { rewrite Hperm. by destruct Hvalid. }
    rewrite <- Hperm in Hcity. clear -Hnd Hcity.
    induction Hnd as [|x l Hx Hnd IH]; [by apply elem_of_nil in Hcity|].
    destruct (decide (x = city)) as [->|Hne].
    + rewrite filter_cons_True by done. simpl. f_equal.
      destruct (filter _ l) as [|y ys] eqn:Hf; [done|].
      assert (y ∈ filter (λ c, c = city) l) as Hy by (rewrite Hf; left).
      by apply list_elem_of_filter in Hy as [-> ?].
    + rewrite filter_cons_False by done. apply IH.
      apply elem_of_cons in Hcity as [->|?]; done.
Qed.

(** C3, for any numbers. On an instance with at least two distinct
    cities, a complete table and the start among the cities, on which some
    tour from the start has a sum below [math.inf], the returned cost is
    the sum
    of one table entry for each pair of neighbours of the returned tour,
    the entry found in the row of the city left under the key of the city
    reached, the entries added from the left, from 0. *)
Theorem tsp_solver_cost_lookups problem perm0 :
  Generic.valid_instance problem →
  Generic.finite_candidate problem perm0 →
  ∃ tour m (legs : list N),
    Generic.tsp_solver problem = Ok (Some tour, m)
    ∧ length legs = length (Generic.cities problem)
    ∧ (∀ i a b, tour !! i = Some a → tour !! S i = Some b →
         ∃ row d, Generic.distances problem !! a = Some row
                  ∧ row !! b = Some d ∧ legs !! i = Some d)
    ∧ m = foldl num_add num_zero legs.
Proof.
  intros Hvalid Hfinite.
  destruct (gen_tsp_solver_finite problem perm0 Hvalid Hfinite)
    as (perm & m & Hrun & Hperm & Hhd & Hm).
  rewrite gen_path_cost_legs_cost in Hm.
  apply gen_legs_cost_lookups in Hm as (legs & Hlen & Hlegs & ->).
  exists (perm ++ [Generic.initial problem]),
    (foldl num_add num_zero legs), legs.
  split_and!; [done| |done..].
  rewrite Hlen, length_app, <- Hperm. simpl. lia.
Qed.


(** C10, for any numbers. When the city list is the start alone and the
    table holds a distance [d] from the start to itself with [0 + d] below
    [math.inf], the solver returns the tour [(start, start)] with the cost
    [0 + d]. *)
Theorem tsp_solver_single_city_finite problem d :
  Generic.cities problem = [Generic.initial problem] →
  Generic.distance problem (Generic.initial problem)
    (Generic.initial problem) = Ok d →
  num_ltb (num_add num_zero d) num_inf = true →
  Generic.tsp_solver problem
  = Ok (Some [Generic.initial problem; Generic.initial problem],
        num_add num_zero d).
Proof.
  intros Hcities Hd Hlt. unfold Generic.tsp_solver. rewrite Hcities.
  change (itertools.permutations [Generic.initial problem])
    with [[Generic.initial problem]].
  simpl for_each. rewrite gen_solver_step_priced by done.
  rewrite gen_path_cost_legs_cost.
  change (Generic.legs_cost problem num_zero
            ([Generic.initial problem] ++ [Generic.initial problem]))
    with (Generic.distance problem (Generic.initial problem)
            (Generic.initial problem) ≫= λ d, Ok (num_add num_zero d)).
  rewrite Hd, !bind_Ok. simpl. by rewrite Hlt.
Qed.

(** X8, for any numbers. When the solver returns no tour, the cost it
    returns is [math.inf]; and it returns no tour exactly when no tour
    from the start has a sum below [math.inf], as when the start is not
    in the city list. *)
Theorem tsp_solver_None_iff problem best m :
  Generic.tsp_solver problem = Ok (best, m) →
  (best = None → m = num_inf)
  ∧ (best = None ↔
       ∀ perm c,
         perm ≡ₚ Generic.cities problem →
         head perm = Some (Generic.initial problem) →
         Generic.path_cost problem (perm ++ [Generic.initial problem])
         = Ok c →
         num_ltb c num_inf = false)
  ∧ (Generic.initial problem ∉ Generic.cities problem → best = None).
Proof.
  intros Hinv%gen_tsp_solver_invariant%gen_for_each_solver_step.
  destruct Hinv as [(-> & -> & Hall)|[(perm & Hperm & Hhd & -> & Hm)
                                       (p' & c' & Hp' & Hhd' & Hc' & Hlt')]].
  - split_and!; [done| |done]. split; [|done].
    intros _ perm c Hperm. apply Hall. by apply elem_of_permutations.
  - apply elem_of_permutations in Hperm, Hp'. split_and!; [done| |].
    + split; [done|]. intros Hall.
      by rewrite (Hall p' c') in Hlt'.
    + intros Hstart. exfalso. apply Hstart. rewrite <- Hperm.
      destruct perm; [done|]. injection Hhd as ->. left.
Qed.

(** X10, for numbers that add exactly. When addition is commutative and
    associative, as for integers, and the table is symmetric on the cities
    of a path, the solver's sum is the same for the path taken
    backwards. *)
Theorem path_cost_reverse_exact problem path :
  (∀ x y : N, num_add x y = num_add y x) →
  (∀ x y z : N, num_add x (num_add y z) = num_add (num_add x y) z) →
  (∀ a b, a ∈ path → b ∈ path →
     Generic.distance problem a b = Generic.distance problem b a) →
  Generic.path_cost problem (reverse path) = Generic.path_cost problem path.
Proof.
  intros Hcomm Hassoc. rewrite !gen_path_cost_legs_cost.
  induction path as [|x path IH]; intros Hsym; [done|].
  rewrite reverse_cons. destruct path as [|y r]; [done|].
  rewrite (gen_legs_cost_snoc _ _ _ y) by by rewrite last_reverse.
  rewrite IH by (intros a b Ha Hb; apply Hsym; by right).
  rewrite (Hsym y x) by (try left; right; left).
  change (Generic.legs_cost problem num_zero (x :: y :: r))
    with (Generic.distance problem x y ≫= λ d,
          Generic.legs_cost problem (num_add num_zero d) (y :: r)).
  destruct (Generic.legs_cost problem num_zero (y :: r)) as [c|e1] eqn:Hc,
           (Generic.distance problem x y) as [d|e2] eqn:Hd;
    rewrite ?bind_Ok.
  - rewrite (Hcomm num_zero d), gen_legs_cost_acc, Hc, bind_Ok by done.
    by rewrite Hcomm.
  - done.
  - rewrite (Hcomm num_zero d), gen_legs_cost_acc, Hc by done. done.
  - apply gen_legs_cost_raises in Hc. apply gen_distance_raises in Hd.
    by subst.
Qed.

End generic_facts.

(** ** Tables of integers

    On a table of integers the solver over [number] is the solver of the
    first part of this file. *)

Section integer_tables.

Context {City : Type} `{Countable City}.
Implicit Types (problem : TSPProblem City) (path perm : list City).

Lemma distance_of_integers problem a b :
  Generic.distance (of_integers problem) a b
  = distance problem a b ≫= λ d, Ok (Fin d).
Proof.
  unfold Generic.distance, distance, of_integers. simpl.
  rewrite lookup_fmap.
  destruct (distances problem !! a) as [row|]; [|done]. simpl.
  rewrite lookup_fmap. by destruct (row !! b).
Qed.

Lemma sum_gen_of_integers (f : nat → outcome Z) idxs acc :
  Generic.sum_gen (λ i, f i ≫= λ d, Ok (Fin d)) idxs (Fin acc)
  = sum_gen f idxs acc ≫= λ c, Ok (Fin c).
Proof.
  revert acc. induction idxs as [|i idxs IH]; intros acc; [done|]. simpl.
  destruct (f i) as [x|e]; [|done]. rewrite !bind_Ok. apply IH.
Qed.

Lemma path_cost_of_integers problem path :
  Generic.path_cost (of_integers problem) path
  = path_cost problem path ≫= λ c, Ok (Fin c).
Proof.
  unfold Generic.path_cost, path_cost.
  rewrite <- sum_gen_of_integers. apply gen_sum_gen_ext. intros i _.
  destruct (index path i) as [a|e]; [|done]. rewrite !bind_Ok.
  destruct (index path (i + 1)) as [b|e]; [|done]. rewrite !bind_Ok.
  apply distance_of_integers.
Qed.

Lemma solver_step_of_integers problem st perm :
  Generic.solver_step (of_integers problem) st perm
  = solver_step problem st perm.
Proof.
  unfold Generic.solver_step, solver_step.
  destruct (index perm 0) as [first|e]; [|done]. rewrite !bind_Ok.
  change (Generic.initial (of_integers problem)) with (initial problem).
  destruct (bool_decide (first ≠ initial problem)); [done|].
  rewrite path_cost_of_integers.
  by destruct (path_cost problem (perm ++ [initial problem])).
Qed.

(** The two solvers agree on tables of integers. *)
Lemma tsp_solver_of_integers problem :
  Generic.tsp_solver (of_integers problem) = tsp_solver problem.
Proof.
  unfold Generic.tsp_solver, tsp_solver. f_equal.
  apply for_each_ext. intros st perm _. apply solver_step_of_integers.
Qed.

Lemma valid_instance_of_integers problem :
  valid_instance problem → Generic.valid_instance (of_integers problem).
Proof.
  intros [Hsize Hnd Hstart Htable]. split; [done..|].
  intros a b Ha Hb Hab. rewrite distance_of_integers.
  destruct (Htable a b Ha Hb Hab) as [d ->]. by eexists.
Qed.

(** On a valid instance with a table of integers every sum is below
    [math.inf]: the extra condition of the properties over any numbers
    holds. *)
Lemma finite_candidate_of_integers problem :
  valid_instance problem →
  ∃ perm, Generic.finite_candidate (of_integers problem) perm.
Proof.
  intros Hvalid.
  destruct (list_elem_of_split _ _ (valid_start _ Hvalid))
    as (l1 & l2 & Hcities).
  exists (initial problem :: l1 ++ l2).
  assert (initial problem :: l1 ++ l2 ≡ₚ cities problem) as Hperm
    by by rewrite Hcities, Permutation_middle.
  split_and!; [done..|].
  destruct (valid_candidate_cost problem _ Hvalid Hperm) as [c Hc]; [done|].
  exists (Fin c). split; [|done].
  change (Generic.initial (of_integers problem)) with (initial problem).
  by rewrite path_cost_of_integers, path_cost_route_cost, Hc.
Qed.

End integer_tables.

Lemma exact_add_comm (x y : number) : num_add x y = num_add y x.
Proof. destruct x, y; simpl; [f_equal; lia|done..]. Qed.

Lemma exact_add_assoc (x y z : number) :
  num_add x (num_add y z) = num_add (num_add x y) z.
Proof. destruct x, y, z; simpl; [f_equal; lia|done..]. Qed.

(** ** The solver over floats and over integers, on concrete instances *)

(** C2 as stated fails: two distinct cities, a complete table and the
    start in the list, and no tour is returned, the distance from A to B
    being [math.inf]. *)
Lemma tsp_solver_inf_leg_no_tour :
  Generic.valid_instance binary64.inf_leg
  ∧ Generic.tsp_solver binary64.inf_leg = Ok (None, num_inf)
  ∧ ¬ ∃ tour m,
      Generic.tsp_solver binary64.inf_leg = Ok (Some tour, m)
      ∧ length tour = S (length (Generic.cities binary64.inf_leg)).
Proof.
  split_and!.
  - apply gen_valid_instanceb_correct. vm_compute. reflexivity.
  - vm_compute. reflexivity.
  - intros (tour & m & Hrun & _). vm_compute in Hrun. discriminate Hrun.
Qed.

(** C3 as stated fails: three distinct cities, a complete table and the
    start in the list, and the returned cost [math.inf] is the sum along
    no returned tour, for there is none. *)
Lemma tsp_solver_no_way_out_no_tour :
  Generic.valid_instance binary64.no_way_out
  ∧ ¬ ∃ tour m (legs : list PrimFloat.float),
      Generic.tsp_solver binary64.no_way_out = Ok (Some tour, m)
      ∧ m = foldl num_add num_zero legs.
Proof.
  split.
  - apply gen_valid_instanceb_correct. vm_compute. reflexivity.
  - intros (tour & m & legs & Hrun & _). vm_compute in Hrun.
    discriminate Hrun.
Qed.

(** C10 as stated fails: the city list is the start alone, the table
    holds its distance to itself, [math.inf], and the tour [(A, A)] is not
    returned. *)
Lemma tsp_solver_single_inf_no_tour :
  Generic.cities binary64.single_inf = [Generic.initial binary64.single_inf]
  ∧ Generic.distance binary64.single_inf "A" "A" = Ok num_inf
  ∧ Generic.tsp_solver binary64.single_inf = Ok (None, num_inf)
  ∧ ∀ m, Generic.tsp_solver binary64.single_inf ≠ Ok (Some ["A"; "A"], m).
Proof.
  split_and!; [reflexivity|vm_compute; reflexivity..|].
  intros m Hrun. vm_compute in Hrun. discriminate Hrun.
Qed.

Lemma finite_candidate_demo_float :
  Generic.finite_candidate binary64.demo_float ["A"; "B"; "C"; "D"].
Proof.
  split_and!; [reflexivity..|].
  eexists. split; vm_compute; reflexivity.
Qed.

Lemma tsp_solver_finite_tour_shape_witness :
  ∃ tour m,
    Generic.tsp_solver binary64.demo_float = Ok (Some tour, m)
    ∧ length tour = S (length (Generic.cities binary64.demo_float))
    ∧ head tour = Some (Generic.initial binary64.demo_float)
    ∧ last tour = Some (Generic.initial binary64.demo_float)
    ∧ take (length (Generic.cities binary64.demo_float)) tour
      ≡ₚ Generic.cities binary64.demo_float
    ∧ ∀ city, city ∈ Generic.cities binary64.demo_float →
        occurrences city
          (take (length (Generic.cities binary64.demo_float)) tour)
        = 1%nat.
Proof.
  apply (tsp_solver_finite_tour_shape binary64.demo_float
           ["A"; "B"; "C"; "D"]).
  - apply gen_valid_instanceb_correct. vm_compute. reflexivity.
  - apply finite_candidate_demo_float.
Defined.

Lemma tsp_solver_cost_lookups_witness :
  ∃ tour m (legs : list PrimFloat.float),
    Generic.tsp_solver binary64.demo_float = Ok (Some tour, m)
    ∧ length legs = length (Generic.cities binary64.demo_float)
    ∧ (∀ i a b, tour !! i = Some a → tour !! S i = Some b →
         ∃ row d, Generic.distances binary64.demo_float !! a = Some row
                  ∧ row !! b = Some d ∧ legs !! i = Some d)
    ∧ m = foldl num_add num_zero legs.
Proof.
  apply (tsp_solver_cost_lookups binary64.demo_float ["A"; "B"; "C"; "D"]).
  - apply gen_valid_instanceb_correct. vm_compute. reflexivity.
  - apply finite_candidate_demo_float.
Defined.


Lemma tsp_solver_single_city_finite_witness :
  Generic.tsp_solver binary64.single_float
  = Ok (Some ["A"; "A"], num_add num_zero binary64.two_and_a_half).
Proof.
  apply (tsp_solver_single_city_finite binary64.single_float
           binary64.two_and_a_half).
  - reflexivity.
  - vm_compute. reflexivity.
  - vm_compute. reflexivity.
Defined.

Lemma tsp_solver_None_iff_witness :
  (@None (list string) = None → PrimFloat.infinity = num_inf)
  ∧ (@None (list string) = None ↔
       ∀ perm c,
         perm ≡ₚ Generic.cities binary64.inf_leg →
         head perm = Some (Generic.initial binary64.inf_leg) →
         Generic.path_cost binary64.inf_leg
           (perm ++ [Generic.initial binary64.inf_leg]) = Ok c →
         num_ltb c num_inf = false)
  ∧ (Generic.initial binary64.inf_leg ∉ Generic.cities binary64.inf_leg →
     @None (list string) = None).
Proof.
  apply (tsp_solver_None_iff binary64.inf_leg None PrimFloat.infinity).
  vm_compute. reflexivity.
Defined.

Lemma path_cost_reverse_exact_witness :
  Generic.path_cost (of_integers demo) (reverse ["A"; "B"; "D"; "C"; "A"])
  = Generic.path_cost (of_integers demo) ["A"; "B"; "D"; "C"; "A"].
Proof.
  apply (path_cost_reverse_exact (of_integers demo)
           ["A"; "B"; "D"; "C"; "A"]).
  - apply exact_add_comm.
  - apply exact_add_assoc.
  - intros a b Ha Hb.
    repeat (apply elem_of_cons in Ha as [->|Ha]);
      try (by apply elem_of_nil in Ha);
      repeat (apply elem_of_cons in Hb as [->|Hb]);
      try (by apply elem_of_nil in Hb);
      vm_compute; reflexivity.
Defined.

(** With floats the sum depends on the direction even on a symmetric
    table: A, B, C, A adds 0.1, 0.2 and 0.3 to 0.6000000000000001, and
    A, C, B, A adds 0.3, 0.2 and 0.1 to 0.6; the solver returns the
    second. *)
Example path_cost_reverse_floats :
  ∃ c1 c2,
    Generic.path_cost binary64.triangle ["A"; "B"; "C"; "A"] = Ok c1
    ∧ Generic.path_cost binary64.triangle (reverse ["A"; "B"; "C"; "A"])
      = Ok c2
    ∧ num_ltb c2 c1 = true
    ∧ Generic.tsp_solver binary64.triangle
      = Ok (Some ["A"; "C"; "B"; "A"], c2).
Proof. eexists _, _. split_and!; vm_compute; reflexivity. Qed.

(** On floats the demonstration gives the same tour, at the cost 80.0. *)
Example tsp_solver_demo_float :
  Generic.tsp_solver binary64.demo_float
  = Ok (Some ["A"; "B"; "D"; "C"; "A"], binary64.eighty).
Proof. vm_compute. reflexivity. Qed.
